(** * jao-pdf: chunk splitting, grid building and CSV merging

    A shallow embedding of the three scripts of the repository

      - [scripts/chunk_pdf.py]            (module [ChunkPdf]),
      - [scripts/analyze_chunks_to_csv.py] (module [AnalyzeChunks]),
      - [scripts/merge_csvs.py]           (module [MergeCsvs]),

    followed by the properties of the pipeline that the design document
    states about them.  Python integers are [Z], Python lists are [list],
    Python [str] is a list of code points, directories are finite maps or
    listings, and a Python exception is the [Raise] outcome of [result]. *)

From Stdlib Require Import ZArith Lia String Ascii Sorted.
From stdpp Require Import base option list gmap.

Local Open Scope Z_scope.

(** ** Python values and control flow shared by the three scripts *)

Module Py.

(** The exceptions the scripts can raise. *)
Inductive exn : Type :=
| IndexError
| OSError
| CsvError.

Inductive result (A : Type) : Type :=
| Ok (a : A)
| Raise (e : exn).
Arguments Ok {A} a.
Arguments Raise {A} e.

Definition bind {A B} (r : result A) (k : A -> result B) : result B :=
  match r with
  | Ok a => k a
  | Raise e => Raise e
  end.

(** [for x in xs: s = body x s], stopping at the first exception. *)
Fixpoint for_each {A S} (xs : list A) (body : A -> S -> result S) (s : S)
  : result S :=
  match xs with
  | [] => Ok s
  | x :: xs' => bind (body x s) (for_each xs' body)
  end.

(** [range(n)] *)
Definition range (n : Z) : list Z := seqZ 0 n.

(** [len(l)] *)
Definition len {A} (l : list A) : Z := Z.of_nat (length l).

(** [l[i]]: a negative index counts from the end, an index outside
    [-len(l) .. len(l)-1] raises [IndexError]. *)
Definition getitem {A} (l : list A) (i : Z) : result A :=
  let j := if i <? 0 then i + len l else i in
  if (0 <=? j) && (j <? len l) then
    match l !! Z.to_nat j with
    | Some x => Ok x
    | None => Raise IndexError
    end
  else Raise IndexError.

(** [l[i] = x], with the same index rule. *)
Definition setitem {A} (l : list A) (i : Z) (x : A) : result (list A) :=
  let j := if i <? 0 then i + len l else i in
  if (0 <=? j) && (j <? len l) then Ok (<[Z.to_nat j := x]> l)
  else Raise IndexError.

(** [l[:w]] *)
Definition slice_to {A} (l : list A) (w : Z) : list A :=
  if w <? 0 then take (Z.to_nat (len l + w)) l else take (Z.to_nat w) l.

(** [[x] * n]: the empty list when [n <= 0]. *)
Definition repeat_list {A} (x : A) (n : Z) : list A := replicate (Z.to_nat n) x.

(** A Python [str] is its sequence of code points. *)
Definition str : Type := list N.

(** The [str] of an ASCII literal. *)
Definition lit (s : string) : str := map N_of_ascii (list_ascii_of_string s).

(** [str.isspace] on one code point (the whitespace table of CPython). *)
Definition is_space (c : N) : bool :=
  ((9 <=? c) && (c <=? 13) || (28 <=? c) && (c <=? 32)
   || (c =? 133) || (c =? 160) || (c =? 5760)
   || (8192 <=? c) && (c <=? 8202)
   || (c =? 8232) || (c =? 8233) || (c =? 8239) || (c =? 8287)
   || (c =? 12288))%N.

Fixpoint lstrip (s : str) : str :=
  match s with
  | [] => []
  | c :: s' => if is_space c then lstrip s' else s
  end.

Definition rstrip (s : str) : str := reverse (lstrip (reverse s)).

(** [s.strip()] *)
Definition strip (s : str) : str := rstrip (lstrip s).

End Py.

Import Py.

Declare Scope py_scope.
Delimit Scope py_scope with py.
Notation "x <- e ;; k" := (bind e (fun x => k))
  (at level 100, e at next level, right associativity) : py_scope.
Local Open Scope py_scope.

(** ** scripts/chunk_pdf.py *)

Module ChunkPdf.
Section Pages.

(** A page of the source document, and the size in bytes of the file
    that [PdfWriter] writes for a list of pages. *)
Context {Page : Type}.
Variable pdf_size : list Page -> Z.

(** The local variables of [generate_pdf_chunks] and the two folders.
    A folder of [chunk_<n>.pdf] files maps the file number [n] to the
    pages written to it, and a path [chunk_folder / f"chunk_{n}.pdf"] is
    its number [n].  [chunk_folder] and [legacy_folder] are two
    different directories. *)
Record state : Type := State {
  current_pages : list Page;
  chunk_counter : Z;
  chunks : list Z;
  legacy_chunks : list Z;
  chunk_folder : gmap Z (list Page);
  legacy_folder : gmap Z (list Page)
}.

(** [shutil.move(src, dst)] of a file from one folder to the other. *)
Definition shutil_move (src dst : Z) (from to : gmap Z (list Page))
  : result (gmap Z (list Page) * gmap Z (list Page)) :=
  match from !! src with
  | Some content => Ok (delete src from, <[dst := content]> to)
  | None => Raise OSError
  end.

(** Lines 61-72: [for i, page in enumerate(current_pages, start=0)]. *)
Fixpoint write_subchunks (chunk_counter i : Z) (pages : list Page)
    (chunks : list Z) (chunk_folder : gmap Z (list Page))
  : list Z * gmap Z (list Page) :=
  match pages with
  | [] => (chunks, chunk_folder)
  | page :: pages' =>
      let subchunk_num := chunk_counter + i in
      write_subchunks chunk_counter (i + 1) pages'
        (chunks ++ [subchunk_num])
        (<[subchunk_num := [page]]> chunk_folder)
  end.

(** Lines 43-85: write the tentative chunk, measure it, keep it or move
    it to the legacy folder and replace it by single-page chunks, then
    reset the accumulator. *)
Definition emit_chunk (max_chunk_size_bytes : Z) (st : state) : result state :=
  let chunk_path := chunk_counter st in
  let written := <[chunk_path := current_pages st]> (chunk_folder st) in
  let chunk_size := pdf_size (current_pages st) in
  if max_chunk_size_bytes <? chunk_size then
    let legacy_path := chunk_counter st in
    moved <- shutil_move chunk_path legacy_path written (legacy_folder st) ;;
    let legacy_chunks' := legacy_chunks st ++ [legacy_path] in
    let sub := write_subchunks (chunk_counter st) 0 (current_pages st)
                 (chunks st) (fst moved) in
    Ok {| current_pages := [];
          chunk_counter := chunk_counter st + len (current_pages st);
          chunks := fst sub;
          legacy_chunks := legacy_chunks';
          chunk_folder := snd sub;
          legacy_folder := snd moved |}
  else
    Ok {| current_pages := [];
          chunk_counter := chunk_counter st + 1;
          chunks := chunks st ++ [chunk_path];
          legacy_chunks := legacy_chunks st;
          chunk_folder := written;
          legacy_folder := legacy_folder st |}.

(** Lines 39-85: the body of [for page_num in range(total_pages)]. *)
Definition loop_body (reader_pages : list Page)
    (total_pages pages_per_chunk max_chunk_size_bytes : Z)
    (page_num : Z) (st : state) : result state :=
  page <- getitem reader_pages page_num ;;
  let st := {| current_pages := current_pages st ++ [page];
               chunk_counter := chunk_counter st;
               chunks := chunks st;
               legacy_chunks := legacy_chunks st;
               chunk_folder := chunk_folder st;
               legacy_folder := legacy_folder st |} in
  if (len (current_pages st) =? pages_per_chunk)
     || (page_num =? total_pages - 1)
  then emit_chunk max_chunk_size_bytes st
  else Ok st.

(** [generate_pdf_chunks].  [pdf] is what [PdfReader] reads at
    [pdf_path]: [None] when the file cannot be opened or parsed.  The
    two folders are given with whatever files they already hold.  The
    result is the final state: the returned lists [chunks] and
    [legacy_chunks] and the two folders as left on disk. *)
Definition generate_pdf_chunks (pdf : option (list Page))
    (chunk_folder0 legacy_folder0 : gmap Z (list Page))
    (pages_per_chunk max_chunk_size_bytes : Z) : result state :=
  match pdf with
  | None => Raise OSError
  | Some reader_pages =>
      let total_pages := len reader_pages in
      for_each (range total_pages)
        (loop_body reader_pages total_pages pages_per_chunk max_chunk_size_bytes)
        {| current_pages := [];
           chunk_counter := 1;
           chunks := [];
           legacy_chunks := [];
           chunk_folder := chunk_folder0;
           legacy_folder := legacy_folder0 |}
  end.

(** The pages held by the files that the list [chunks] names, in list
    order. *)
Definition chunk_contents (st : state) : list (list Page) :=
  map (fun n => default [] (chunk_folder st !! n)) (chunks st).

(** *** Vocabulary of the splitting properties *)

(** The runs of pages that the loop hands to [emit_chunk]: the
    accumulator is emitted when it reaches [pages_per_chunk] pages or
    when the document ends. *)
Fixpoint runs_from (pages_per_chunk : Z) (current pages : list Page)
  : list (list Page) :=
  match pages with
  | [] => []
  | page :: pages' =>
      let current' := current ++ [page] in
      if (len current' =? pages_per_chunk)
         || match pages' with [] => true | _ :: _ => false end
      then current' :: runs_from pages_per_chunk [] pages'
      else runs_from pages_per_chunk current' pages'
  end.

Definition runs (pages_per_chunk : Z) (pages : list Page) : list (list Page) :=
  runs_from pages_per_chunk [] pages.

(** A run is oversized when the file written for it exceeds the ceiling. *)
Definition oversized (max_chunk_size_bytes : Z) (run : list Page) : bool :=
  max_chunk_size_bytes <? pdf_size run.

(** What a run becomes in the primary folder: itself, or one chunk per
    page when it is oversized. *)
Definition pieces (max_chunk_size_bytes : Z) (run : list Page)
  : list (list Page) :=
  if oversized max_chunk_size_bytes run then map (fun page => [page]) run
  else [run].

(** The sequence number at which the run that follows the runs [before]
    is emitted: one more than the number of chunks emitted for them. *)
Definition number_after (max_chunk_size_bytes : Z)
    (before : list (list Page)) : Z :=
  1 + len (flat_map (pieces max_chunk_size_bytes) before).

(** [emit_chunk] entered with [run] in the accumulator. *)
Definition emit_run (max_chunk_size_bytes : Z) (run : list Page) (st : state)
  : result state :=
  emit_chunk max_chunk_size_bytes
    {| current_pages := run;
       chunk_counter := chunk_counter st;
       chunks := chunks st;
       legacy_chunks := legacy_chunks st;
       chunk_folder := chunk_folder st;
       legacy_folder := legacy_folder st |}.

(** The state in which the loop starts. *)
Definition initial (chunk_folder0 legacy_folder0 : gmap Z (list Page)) : state :=
  {| current_pages := [];
     chunk_counter := 1;
     chunks := [];
     legacy_chunks := [];
     chunk_folder := chunk_folder0;
     legacy_folder := legacy_folder0 |}.

End Pages.

(** The documents of the scenarios: a page is given by its size in
    bytes, and a file weighs the sum of its pages. *)
Definition sum_size (pages : list Z) : Z := foldr Z.add 0 pages.

End ChunkPdf.

(** ** scripts/analyze_chunks_to_csv.py *)

Module AnalyzeChunks.

(** A cell and a table as the analysis service returns them.  An
    attribute that is absent or [None] is [None] here. *)
Record cell : Type := Cell {
  row_index : option Z;
  column_index : option Z;
  content : option str
}.

Record table : Type := Table {
  row_count : option Z;
  column_count : option Z;
  cells : list cell
}.

Abbreviation grid := (list (list str)).

(** [x or 0] *)
Definition or_zero (x : option Z) : Z :=
  match x with
  | Some n => n
  | None => 0
  end.

(** [x or ""] *)
Definition or_empty (x : option str) : str :=
  match x with
  | Some s => s
  | None => []
  end.

(** [grid[r][c] = v] *)
Definition store (g : grid) (r c : Z) (v : str) : result grid :=
  row <- getitem g r ;;
  row' <- setitem row c v ;;
  setitem g r row'.

(** Lines 33-37: the body of [for cell in table.cells]. *)
Definition place_cell (row_count col_count : Z) (cell : cell) (g : grid)
  : result grid :=
  let r := row_index cell in
  let c := column_index cell in
  let content := or_empty (content cell) in
  match r, c with
  | Some r, Some c =>
      if (0 <=? r) && (r <? row_count) && (0 <=? c) && (c <? col_count)
      then store g r c (strip content)
      else Ok g
  | _, _ => Ok g
  end.

Definition build_grid_from_table (table : table) : result grid :=
  let row_count := or_zero (row_count table) in
  let col_count := or_zero (column_count table) in
  let grid := map (fun _ => repeat_list [] col_count) (range row_count) in
  for_each (cells table) (place_cell row_count col_count) grid.

(** *** Vocabulary of the grid properties *)

(** The cell is placed at position [(r, c)]. *)
Definition covers (r c : Z) (cell : cell) : Prop :=
  row_index cell = Some r /\ column_index cell = Some c.

#[global] Instance covers_dec r c cell : Decision (covers r c cell).
Proof. unfold covers. apply _. Defined.

(** The text that position [(r, c)] of the grid is expected to hold:
    the stripped content of the last cell placed there, the empty
    string when there is none. *)
Definition text_at (cells : list cell) (r c : Z) : str :=
  match last (filter (covers r c) cells) with
  | Some cell => strip (or_empty (content cell))
  | None => []
  end.

(** The grid has [R] rows of [C] cells and holds [text_at cells] at
    every position. *)
Definition grid_holds (R C : Z) (cells : list cell) (g : grid) : Prop :=
  len g = R
  /\ Forall (fun row => len row = C) g
  /\ forall r c, 0 <= r < R -> 0 <= c < C ->
       exists row, g !! Z.to_nat r = Some row
                   /\ row !! Z.to_nat c = Some (text_at cells r c).

(** A 2 x 2 table with a padded text, two cells at the same position,
    a row index past the end, a negative row index and a cell without
    indices. *)
Definition sample_table : table :=
  {| row_count := Some 2;
     column_count := Some 2;
     cells :=
       [ {| row_index := Some 0; column_index := Some 1;
            content := Some (lit " x ") |};
         {| row_index := Some 5; column_index := Some 1;
            content := Some (lit "y") |};
         {| row_index := Some 0; column_index := Some 1;
            content := Some (lit "z ") |};
         {| row_index := Some (-1); column_index := Some 0;
            content := Some (lit "w") |};
         {| row_index := None; column_index := Some 0;
            content := None |} ] |}.

End AnalyzeChunks.

(** ** scripts/merge_csvs.py *)

Module MergeCsvs.

Abbreviation csv_row := (list str).

(** An entry of [csv_dir]: its file name and what [csv.reader] yields
    for it; [None] when the entry cannot be read as UTF-8 CSV text. *)
Record dir_entry : Type := DirEntry {
  name : str;
  content : option (list csv_row)
}.

(** The part of the file system that [merge_csvs] touches: the listing
    of [csv_dir] in enumeration order ([None] when the directory does
    not exist) and the rows written to the file at [out_path] ([None]
    when that file does not exist).  [out_path] is a writable location
    outside [csv_dir]. *)
Record filesystem : Type := FileSystem {
  csv_dir : option (list dir_entry);
  out_file : option (list csv_row)
}.

(** The code point of the digit zero of every script and style that has
    decimal digits: the decimal digits of the Unicode database (its
    category [Nd], at version 14.0, that of CPython 3.11) come in runs
    of ten consecutive code points, zero first.  The list begins with
    the ASCII digits, the Arabic-Indic digits and the extended
    Arabic-Indic digits, and ends with the segmented digits. *)
Definition decimal_zeros : list N :=
  [
    48; 1632; 1776; 1984; 2406; 2534; 2662; 2790;
    2918; 3046; 3174; 3302; 3430; 3558; 3664; 3792;
    3872; 4160; 4240; 6112; 6160; 6470; 6608; 6784;
    6800; 6992; 7088; 7232; 7248; 42528; 43216; 43264;
    43472; 43504; 43600; 44016; 65296; 66720; 68912; 69734;
    69872; 69942; 70096; 70384; 70736; 70864; 71248; 71360;
    71472; 71904; 72016; 72784; 73040; 73120; 92768; 92864;
    93008; 120782; 120792; 120802; 120812; 120822; 123200; 123632;
    125264; 130032
  ]%N.

(** [unicodedata.decimal]: the value of a decimal digit, [None] for any
    other code point. *)
Definition digit_value (c : N) : option Z :=
  match List.find (fun zero => (zero <=? c) && (c <? zero + 10))%N decimal_zeros with
  | Some zero => Some (Z.of_N (c - zero))
  | None => None
  end.

(** [\d] in a pattern that is a [str]: a decimal digit of any script. *)
Definition is_digit (c : N) : bool :=
  match digit_value c with
  | Some _ => true
  | None => false
  end.

(** The longest run of digits at the head of [s], and what follows it. *)
Fixpoint span_digits (s : str) : str * str :=
  match s with
  | [] => ([], [])
  | c :: s' =>
      if is_digit c then
        let '(digits, rest) := span_digits s' in (c :: digits, rest)
      else ([], s)
  end.

(** [int(digits)] for a run of decimal digits, of any script; the run
    is part of a file name, far shorter than the 4300 digits above
    which [int] refuses a text. *)
Definition int (digits : str) : Z :=
  fold_left (fun acc c => 10 * acc + default 0 (digit_value c)) digits 0.

(** [\.csv$]: [$] matches at the end of the string and before a
    newline that ends it. *)
Definition dot_csv_at_end (s : str) : bool :=
  bool_decide (s = lit ".csv") || bool_decide (s = lit ".csv" ++ [10%N]).

(** The pattern [(\d+)(?=\.csv$)] tried at the head of [s]: the greedy
    digit run; a shorter run is followed by a digit, never by a dot. *)
Definition match_here (s : str) : option str :=
  let '(digits, rest) := span_digits s in
  match digits with
  | [] => None
  | _ :: _ => if dot_csv_at_end rest then Some digits else None
  end.

(** [re.search]: the match at the leftmost position that has one. *)
Fixpoint re_search (s : str) : option str :=
  match match_here s with
  | Some digits => Some digits
  | None =>
      match s with
      | [] => None
      | _ :: s' => re_search s'
      end
  end.

Definition natural_key (p : dir_entry) : Z :=
  match re_search (name p) with
  | Some digits => int digits
  | None => 0
  end.

(** [csv_dir.glob("*.csv")]: the entries whose name ends in [.csv], in
    enumeration order; nothing when the directory does not exist. *)
Definition glob_csv (dir : option (list dir_entry)) : list dir_entry :=
  match dir with
  | None => []
  | Some entries =>
      filter (fun p => lit ".csv" `suffix_of` name p) entries
  end.

(** [sorted(xs, key=key)]: a stable sort, here by insertion from the
    right. *)
Fixpoint insert_by {A} (key : A -> Z) (x : A) (l : list A) : list A :=
  match l with
  | [] => [x]
  | y :: l' => if key x <=? key y then x :: l else y :: insert_by key x l'
  end.

Definition sorted {A} (l : list A) (key : A -> Z) : list A :=
  foldr (insert_by key) [] l.

Definition iter_csv_rows (csv_path : dir_entry) : result (list csv_row) :=
  match content csv_path with
  | Some rows => Ok rows
  | None => Raise CsvError
  end.

Definition is_empty_row (row : csv_row) : bool :=
  forallb (fun c => bool_decide (strip c = [])) row.

Definition pad_row (row : csv_row) (width : Z) : csv_row :=
  if len row <? width then row ++ repeat_list [] (width - len row)
  else slice_to row width.

(** Lines 54-56: the width scan of one file. *)
Definition scan_file (csv_file : dir_entry) (max_cols : Z) : result Z :=
  rows <- iter_csv_rows csv_file ;;
  Ok (fold_left (fun max_cols row => Z.max max_cols (len row)) rows max_cols).

(** Lines 68-75: one row of the output pass.  [out] is the sequence of
    rows handed to [writer.writerow] so far. *)
Definition write_row (add_source_column drop_empty_rows : bool)
    (csv_file : dir_entry) (max_cols : Z)
    (acc : list csv_row * Z) (row : csv_row) : list csv_row * Z :=
  let '(out, wrote) := acc in
  if drop_empty_rows && is_empty_row row then (out, wrote)
  else
    let normalized := pad_row row max_cols in
    if add_source_column
    then (out ++ [name csv_file :: normalized], wrote + 1)
    else (out ++ [normalized], wrote + 1).

(** Lines 66-75: the output pass.  An exception leaves the rows written
    before it in the file. *)
Fixpoint write_files (add_source_column drop_empty_rows : bool)
    (max_cols : Z) (csv_files : list dir_entry)
    (out : list csv_row) (wrote : Z) : list csv_row * result Z :=
  match csv_files with
  | [] => (out, Ok wrote)
  | csv_file :: csv_files' =>
      match iter_csv_rows csv_file with
      | Raise e => (out, Raise e)
      | Ok rows =>
          let '(out', wrote') :=
            fold_left
              (write_row add_source_column drop_empty_rows csv_file max_cols)
              rows (out, wrote) in
          write_files add_source_column drop_empty_rows max_cols
            csv_files' out' wrote'
      end
  end.

(** [merge_csvs]: the file system after the call and the value
    returned or the exception raised. *)
Definition merge_csvs (fs : filesystem)
    (add_source_column drop_empty_rows : bool) : filesystem * result Z :=
  let csv_files := sorted (glob_csv (csv_dir fs)) natural_key in
  match csv_files with
  | [] => (fs, Ok 0)
  | _ :: _ =>
      match for_each csv_files scan_file 0 with
      | Raise e => (fs, Raise e)
      | Ok max_cols =>
          let '(out, wrote) :=
            write_files add_source_column drop_empty_rows max_cols
              csv_files [] 0 in
          ({| csv_dir := csv_dir fs; out_file := Some out |}, wrote)
      end
  end.

(** *** Vocabulary of the merge properties *)

(** The rows of an artifact (none when it cannot be read). *)
Definition rows_of (csv_file : dir_entry) : list csv_row :=
  match content csv_file with
  | Some rows => rows
  | None => []
  end.

Definition readable (csv_file : dir_entry) : Prop := is_Some (content csv_file).

(** The maximum row length over all rows of all the artifacts, 0 when
    there is no row. *)
Definition max_width (csv_files : list dir_entry) : Z :=
  foldr Z.max 0 (map len (flat_map rows_of csv_files)).

(** The leading provenance cell, when it is asked for. *)
Definition provenance (add_source_column : bool) (csv_file : dir_entry)
  : csv_row :=
  if add_source_column then [name csv_file] else [].

(** A row is blank when every cell is empty after trimming. *)
Definition blank (row : csv_row) : Prop := Forall (fun c => strip c = []) row.

(** The rows that the output pass keeps. *)
Definition kept (drop_empty_rows : bool) (row : csv_row) : Prop :=
  drop_empty_rows = true -> ~ blank row.

#[global] Instance kept_dec drop_empty_rows row : Decision (kept drop_empty_rows row).
Proof. unfold kept, blank. apply _. Defined.

(** The rows written for one artifact. *)
Definition written_for (add_source_column drop_empty_rows : bool) (W : Z)
    (csv_file : dir_entry) : list csv_row :=
  map (fun row => provenance add_source_column csv_file ++ pad_row row W)
    (filter (kept drop_empty_rows) (rows_of csv_file)).

(** The rows of the merged artifact: the rows written for each
    artifact, in the order of [csv_files], at the width of the widest
    row of all of them. *)
Definition merged_rows (add_source_column drop_empty_rows : bool)
    (csv_files : list dir_entry) : list csv_row :=
  flat_map (written_for add_source_column drop_empty_rows (max_width csv_files))
    csv_files.

(** The keys never decrease along the list. *)
Definition ascending {A} (key : A -> Z) (l : list A) : Prop :=
  StronglySorted (fun x y => key x <= key y) l.

(** [f] occurs before [g] in the list. *)
Definition before {A} (f g : A) (l : list A) : Prop :=
  exists l1 l2 l3, l = l1 ++ f :: l2 ++ g :: l3.

(** The run of digits that ends the stem of a file name. *)
Definition trailing_digits (stem : str) : str :=
  reverse (fst (span_digits (reverse stem))).

(** The artifacts of the ordering scenario, listed in lexicographic
    order, and of the width scenario of the design document. *)
Definition chunk_2_table_1 : dir_entry :=
  {| name := lit "chunk_2_table_1.csv"; content := Some [[lit "a"]] |}.

Definition chunk_10_table_1 : dir_entry :=
  {| name := lit "chunk_10_table_1.csv"; content := Some [[lit "b"]] |}.

Definition lexicographic_listing : filesystem :=
  {| csv_dir := Some [chunk_10_table_1; chunk_2_table_1]; out_file := None |}.

Definition chunk_1_table_1 : dir_entry :=
  {| name := lit "chunk_1_table_1.csv";
     content := Some [[lit "a"; lit "b"]; [lit " "; []]] |}.

Definition chunk_1_table_2 : dir_entry :=
  {| name := lit "chunk_1_table_2.csv";
     content := Some [[lit "c"; lit "d"; lit "e"; lit "f"]] |}.

Definition width_scenario : filesystem :=
  {| csv_dir :=
       Some [ chunk_1_table_2;
              {| name := lit "notes.txt"; content := None |};
              chunk_1_table_1 ];
     out_file := None |}.

Definition width_scenario_merged : filesystem :=
  {| csv_dir := csv_dir width_scenario;
     out_file :=
       Some [ [lit "chunk_1_table_1.csv"; lit "a"; lit "b"; []; []];
              [lit "chunk_1_table_2.csv"; lit "c"; lit "d"; lit "e"; lit "f"] ] |}.

(** An artifact whose widest row is blank. *)
Definition wide_blank_row : filesystem :=
  {| csv_dir :=
       Some [ {| name := lit "chunk_3_table_1.csv";
                 content := Some [[lit "a"]; [lit " "; []; lit "  "]] |} ];
     out_file := None |}.

(** A directory that does not exist. *)
Definition missing_directory : filesystem :=
  {| csv_dir := None; out_file := None |}.

(** A directory without any [.csv] entry. *)
Definition no_artifacts : list dir_entry :=
  [ {| name := lit "notes.txt"; content := None |};
    {| name := lit "table.csv.bak"; content := None |} ].

End MergeCsvs.

(** ** File names: number formatting, case folding, stems *)

Module PyText.

(** The decimal digits of a number that is not negative, most significant
    first; [fuel] bounds their number. *)
Fixpoint decimal (fuel : nat) (n : Z) : str :=
  match fuel with
  | O => []
  | Datatypes.S fuel' =>
      if n <? 10 then [Z.to_N (48 + n)]
      else decimal fuel' (n / 10) ++ [Z.to_N (48 + n mod 10)]
  end.

(** [f"{n}"] for an [int]. *)
Definition format_int (n : Z) : str :=
  if n <? 0 then 45%N :: decimal (Datatypes.S (Z.to_nat (Z.log2 (- n)))) (- n)
  else decimal (Datatypes.S (Z.to_nat (Z.log2 n))) n.

(** The lower-case form of a code point, on the code points whose
    lower-case form is an ASCII letter: [A-Z], the dotted capital I and
    the Kelvin sign. *)
Definition to_lower (c : N) : N :=
  if ((65 <=? c) && (c <=? 90))%N then (c + 32)%N
  else if (c =? 304)%N then 105%N
  else if (c =? 8490)%N then 107%N
  else c.

(** A literal of lower-case ASCII letters and signs matched at the head
    of [s] under [re.IGNORECASE]: what follows the match. *)
Fixpoint match_ignore_case (literal s : str) : option str :=
  match literal, s with
  | [], _ => Some s
  | _ :: _, [] => None
  | p :: literal', c :: s' =>
      if (to_lower c =? p)%N then match_ignore_case literal' s' else None
  end.

(** [s.rfind(c)], scanning from position [i] with the last position
    [found] so far. *)
Fixpoint rfind_from (c : N) (s : str) (i : nat) (found : option nat)
  : option nat :=
  match s with
  | [] => found
  | x :: s' => rfind_from c s' (Datatypes.S i) (if (x =? c)%N then Some i else found)
  end.

(** [PurePath(name).stem]: the name without its last suffix. *)
Definition stem (name : str) : str :=
  match rfind_from 46%N name 0 None with
  | Some i =>
      if (0 <? Z.of_nat i) && (Z.of_nat i <? len name - 1) then take i name
      else name
  | None => name
  end.

(** *** Vocabulary *)

(** The text is made of whitespace only. *)
Definition spaces (s : str) : Prop := Forall (fun c => is_space c = true) s.

(** The text neither begins nor ends with whitespace. *)
Definition trimmed (s : str) : Prop :=
  (forall c, head s = Some c -> is_space c = false)
  /\ (forall c, last s = Some c -> is_space c = false).

End PyText.

Import PyText.

(** ** scripts/chunk_pdf.py: the command line *)

Module ChunkPdfCli.
Import ChunkPdf.
Section Pages.

Context {Page : Type}.
Variable pdf_size : list Page -> Z.

(** What is found at [--pdf]: nothing, or a file that [PdfReader] reads
    ([None] when it cannot). *)
Inductive pdf_path_state : Type :=
| Missing
| Present (pdf : option (list Page)).

(** The name of the file [chunk_folder / f"chunk_{chunk_counter}.pdf"]. *)
Definition chunk_file_name (chunk_counter : Z) : str :=
  lit "chunk_" ++ format_int chunk_counter ++ lit ".pdf".

(** [main] with [--pages-per-chunk] and [--max-chunk-size-mb] parsed as
    integers. *)
Definition main (pdf_path : pdf_path_state)
    (chunk_folder legacy_folder : gmap Z (list Page))
    (pages_per_chunk max_chunk_size_mb : Z) : result state :=
  match pdf_path with
  | Missing => Raise OSError
  | Present pdf =>
      let pages_per_chunk := Z.max 1 pages_per_chunk in
      let max_chunk_size_bytes := max_chunk_size_mb * 1024 * 1024 in
      generate_pdf_chunks pdf_size pdf chunk_folder legacy_folder
        pages_per_chunk max_chunk_size_bytes
  end.

(** *** Vocabulary *)

(** The numbers under which the oversized runs are emitted, the first
    run being emitted at [k]. *)
Fixpoint legacy_numbers (max_chunk_size_bytes k : Z) (rs : list (list Page))
  : list Z :=
  match rs with
  | [] => []
  | run :: rs' =>
      if oversized pdf_size max_chunk_size_bytes run
      then k :: legacy_numbers max_chunk_size_bytes (k + len run) rs'
      else legacy_numbers max_chunk_size_bytes (k + 1) rs'
  end.

(** The pages [pages[i*P : (i+1)*P]]. *)
Definition page_group (P i : Z) (pages : list Page) : list Page :=
  take (Z.to_nat P) (drop (Z.to_nat (i * P)) pages).

End Pages.
End ChunkPdfCli.

(** ** scripts/analyze_chunks_to_csv.py: the driver *)

Module AnalyzeDriver.
Import AnalyzeChunks.

(** The exceptions of the driver: its own, the failure of the analysis
    service, that of [time.sleep], and those of [Py]. *)
Inductive failure : Type :=
| RuntimeError
| FileNotFoundError
| ServiceError
| OverflowError
| Python (e : exn).

Inductive outcome (A : Type) : Type :=
| Done (a : A)
| Failed (f : failure).
Arguments Done {A} a.
Arguments Failed {A} f.

(** [\.pdf$] under [re.IGNORECASE]. *)
Definition dot_pdf_at_end (s : str) : bool :=
  match match_ignore_case (lit ".pdf") s with
  | Some [] => true
  | Some [c] => (c =? 10)%N
  | _ => false
  end.

(** The pattern [chunk_(\d+)\.pdf$] tried at the head of [s]. *)
Definition match_chunk_here (s : str) : option str :=
  match match_ignore_case (lit "chunk_") s with
  | None => None
  | Some s' =>
      let '(digits, rest) := MergeCsvs.span_digits s' in
      match digits with
      | [] => None
      | _ :: _ => if dot_pdf_at_end rest then Some digits else None
      end
  end.

(** [re.search(r"chunk_(\d+)\.pdf$", name, re.IGNORECASE)] *)
Fixpoint re_search_chunk (s : str) : option str :=
  match match_chunk_here s with
  | Some digits => Some digits
  | None =>
      match s with
      | [] => None
      | _ :: s' => re_search_chunk s'
      end
  end.

(** The file written by [write_csv]: the rows handed to
    [writer.writerow], under the name of the file in the output directory. *)
Definition write_csv (out_dir : gmap (list N) (list (list str)))
    (path : str) (rows : list (list str)) : gmap (list N) (list (list str)) :=
  <[path := rows]> out_dir.

(** The name [f"{pdf_path.stem}_table_{i}.csv"]. *)
Definition csv_name (pdf_name : str) (i : Z) : str :=
  stem pdf_name ++ lit "_table_" ++ format_int i ++ lit ".csv".

(** Lines 67-73: [for i, table in enumerate(result.tables or [], start=1)]. *)
Fixpoint write_tables (pdf_name : str) (i : Z) (tables : list table)
    (output_dir : gmap (list N) (list (list str))) (total_tables : Z)
  : gmap (list N) (list (list str)) * outcome Z :=
  match tables with
  | [] => (output_dir, Done total_tables)
  | table :: tables' =>
      match build_grid_from_table table with
      | Raise e => (output_dir, Failed (Python e))
      | Ok grid =>
          write_tables pdf_name (i + 1) tables'
            (write_csv output_dir (csv_name pdf_name i) grid)
            (total_tables + 1)
      end
  end.

Section Service.

(** The bytes of a chunk file, and the analysis service: [None] when the
    call raises, the [tables] attribute of the result otherwise. *)
Context {Chunk : Type}.
Variable analyze_document : Chunk -> option (option (list table)).

(** The values of [--delay], and line 151,
    [time.sleep(max(0.0, float(args.delay)))]: [None] when the statement
    returns, the exception that it raises otherwise ([max] lets [inf]
    through, for which [time.sleep] raises an [OverflowError]). *)
Context {Delay : Type}.
Variable sleep : Delay -> option failure.

(** An entry of [chunks_dir]: its name and its bytes ([None] when it
    cannot be opened). *)
Record chunk_file : Type := ChunkFile {
  file_name : str;
  file_bytes : option Chunk
}.

Definition natural_chunk_sort_key (p : chunk_file) : Z :=
  match re_search_chunk (file_name p) with
  | Some digits => MergeCsvs.int digits
  | None => 0
  end.

Definition analyze_pdf_to_csvs (pdf_path : chunk_file)
    (output_dir : gmap (list N) (list (list str)))
  : gmap (list N) (list (list str)) * outcome Z :=
  match file_bytes pdf_path with
  | None => (output_dir, Failed (Python OSError))
  | Some bytes =>
      match analyze_document bytes with
      | None => (output_dir, Failed ServiceError)
      | Some tables =>
          write_tables (file_name pdf_path) 1
            (match tables with Some ts => ts | None => [] end)
            output_dir 0
      end
  end.

(** [chunks_dir.glob("chunk_*.pdf")] *)
Definition glob_chunks (dir : option (list chunk_file)) : list chunk_file :=
  match dir with
  | None => []
  | Some entries =>
      filter (fun p => lit "chunk_" `prefix_of` file_name p
                       /\ lit ".pdf" `suffix_of` drop 6 (file_name p))
        entries
  end.

(** Lines 141-150: the [try] statement of the loop; an exception of the
    chunk is reported and the total is left as it is. *)
Definition try_chunk (pdf_path : chunk_file)
    (out_dir : gmap (list N) (list (list str))) (grand_total : Z)
  : gmap (list N) (list (list str)) * Z :=
  match analyze_pdf_to_csvs pdf_path out_dir with
  | (out_dir', Done total_tables) => (out_dir', grand_total + total_tables)
  | (out_dir', Failed _) => (out_dir', grand_total)
  end.

(** Lines 139-151: the loop over the chunks.  The pause that follows
    every chunk, the last one too, stands outside the [try]: an
    exception that it raises ends the loop. *)
Fixpoint process_chunks (chunk_files : list chunk_file) (delay : Delay)
    (out_dir : gmap (list N) (list (list str))) (grand_total : Z)
  : gmap (list N) (list (list str)) * outcome Z :=
  match chunk_files with
  | [] => (out_dir, Done grand_total)
  | pdf_path :: chunk_files' =>
      let '(out_dir', grand_total') := try_chunk pdf_path out_dir grand_total in
      match sleep delay with
      | Some e => (out_dir', Failed e)
      | None => process_chunks chunk_files' delay out_dir' grand_total'
      end
  end.

(** What [main] prints when it returns. *)
Inductive report : Type :=
| NoChunks
| Extracted (grand_total chunk_count : Z).

(** [not value] for an environment variable. *)
Definition unset (value : option str) : bool :=
  match value with
  | Some (_ :: _) => false
  | _ => true
  end.

(** Lines 124-126: the chunks in key order, from [--start-from] on. *)
Definition candidate_chunks (chunks_dir : option (list chunk_file))
    (start_from : Z) : list chunk_file :=
  let chunk_files :=
    MergeCsvs.sorted (glob_chunks chunks_dir) natural_chunk_sort_key in
  filter (fun p => start_from <= natural_chunk_sort_key p) chunk_files.

(** Lines 132-133: at most [--max-chunks] of them, when that is positive. *)
Definition limit_chunks (chunk_files : list chunk_file) (max_chunks : Z)
  : list chunk_file :=
  if 0 <? max_chunks then take (Z.to_nat max_chunks) chunk_files
  else chunk_files.

(** [main] with its arguments parsed: the two environment variables,
    the chunk directory, the output directory, [--start-from],
    [--max-chunks] and [--delay].  The client is built without a call
    to the service, and the standard output takes every text. *)
Definition main (endpoint api_key : option str)
    (chunks_dir : option (list chunk_file))
    (out_dir : gmap (list N) (list (list str)))
    (start_from max_chunks : Z) (delay : Delay)
  : gmap (list N) (list (list str)) * outcome report :=
  if unset endpoint || unset api_key then (out_dir, Failed RuntimeError)
  else
    match chunks_dir with
    | None => (out_dir, Failed FileNotFoundError)
    | Some _ =>
        match candidate_chunks chunks_dir start_from with
        | [] => (out_dir, Done NoChunks)
        | chunk_files =>
            let chunk_files := limit_chunks chunk_files max_chunks in
            match process_chunks chunk_files delay out_dir 0 with
            | (out_dir', Done grand_total) =>
                (out_dir', Done (Extracted grand_total (len chunk_files)))
            | (out_dir', Failed e) => (out_dir', Failed e)
            end
        end
    end.

End Service.
End AnalyzeDriver.

(** ** Vocabulary of the driver properties *)

Module DriverVocabulary.
Import AnalyzeChunks AnalyzeDriver.
Section Service.

Context {Chunk : Type}.
Variable analyze_document : Chunk -> option (option (list table)).

(** The number of tables that the analysis of a chunk yields: 0 when
    the chunk cannot be opened or the service fails. *)
Definition tables_found (p : chunk_file (Chunk := Chunk)) : Z :=
  match file_bytes p with
  | Some bytes =>
      match analyze_document bytes with
      | Some (Some tables) => len tables
      | _ => 0
      end
  | None => 0
  end.

Definition total_tables_found (chunk_files : list (chunk_file (Chunk := Chunk)))
  : Z :=
  foldr Z.add 0 (map tables_found chunk_files).

End Service.

(** A service for the scenarios: chunks are numbers; chunk 0 makes the
    service fail, chunk 1 has no table, any other chunk has two. *)
Definition sample_service (chunk : nat) : option (option (list table)) :=
  match chunk with
  | O => None
  | Datatypes.S O => Some None
  | _ => Some (Some [sample_table; sample_table])
  end.

(** Values of [--delay] for the scenarios: a number of seconds, for
    which the pause returns, and [inf], for which it raises. *)
Inductive sample_delay : Type :=
| Seconds (seconds : Z)
| Infinite.

Definition sample_sleep (delay : sample_delay) : option failure :=
  match delay with
  | Seconds _ => None
  | Infinite => Some OverflowError
  end.

(** A directory of chunks listed in lexicographic order, with a file
    that is not a chunk and a chunk that cannot be opened. *)
Definition sample_chunks_dir : list (chunk_file (Chunk := nat)) :=
  [ {| file_name := lit "chunk_1.pdf"; file_bytes := None |};
    {| file_name := lit "chunk_10.pdf"; file_bytes := Some 5%nat |};
    {| file_name := lit "chunk_2.pdf"; file_bytes := Some 0%nat |};
    {| file_name := lit "chunk_3.pdf"; file_bytes := Some 1%nat |};
    {| file_name := lit "notes.pdf"; file_bytes := None |} ].

(** The files [chunk_1.pdf .. chunk_3.pdf], not listed in their order. *)
Definition shuffled_chunks : list (chunk_file (Chunk := nat)) :=
  [ {| file_name := lit "chunk_2.pdf"; file_bytes := Some 2%nat |};
    {| file_name := lit "chunk_3.pdf"; file_bytes := Some 3%nat |};
    {| file_name := lit "chunk_1.pdf"; file_bytes := Some 1%nat |} ].

End DriverVocabulary.

(** ** Vocabulary of the grid shape *)

Module GridShape.
Import AnalyzeChunks.

(** The grid has [R] rows of [C] cells (none when the count is negative)
    and every text in it satisfies [P]. *)
Definition grid_shape (P : str -> Prop) (R C : Z) (g : grid) : Prop :=
  length g = Z.to_nat R
  /\ Forall (fun row => length row = Z.to_nat C /\ Forall P row) g.

End GridShape.

(** ** More artifacts for the merge scenarios *)

Module MergeScenarios.
Import MergeCsvs.

Definition unreadable_table : dir_entry :=
  {| name := lit "chunk_2_table_2.csv"; content := None |}.

(** A directory with an artifact that cannot be read, and a merged file
    left by an earlier run. *)
Definition broken_artifact : filesystem :=
  {| csv_dir := Some [chunk_1_table_1; unreadable_table];
     out_file := Some [[lit "old"]] |}.

(** The artifacts of the width scenario in two orders of enumeration. *)
Definition listing_one : list dir_entry :=
  [ chunk_1_table_2; {| name := lit "notes.txt"; content := None |};
    chunk_1_table_1 ].

Definition listing_two : list dir_entry :=
  [ chunk_1_table_1; chunk_1_table_2;
    {| name := lit "notes.txt"; content := None |} ].

End MergeScenarios.

(** ** The command line of the merge *)

Module MergeCsvsCli.
Import Py MergeCsvs.

(** [main], lines 81-107: [--no-add-source] and [--keep-empty] turn the
    two options of [merge_csvs] off; the count that [merge_csvs]
    returns is dropped. *)
Definition main (fs : filesystem) (no_add_source keep_empty : bool)
  : filesystem * result unit :=
  let '(fs', wrote) :=
    merge_csvs fs (negb no_add_source) (negb keep_empty) in
  (fs', match wrote with Ok _ => Ok tt | Raise e => Raise e end).

End MergeCsvsCli.

(** ** The chunk directory after a split *)

Module PipelineVocabulary.
Import ChunkPdfCli AnalyzeDriver.

(** The entry of the chunk directory for the file [chunk_<n>.pdf] of a
    folder of chunks. *)
Definition chunk_entry {Page} (folder : gmap Z (list Page)) (n : Z)
  : chunk_file (Chunk := list Page) :=
  {| file_name := chunk_file_name n; file_bytes := folder !! n |}.

End PipelineVocabulary.

(** * Properties *)

(** ** Loops and lists *)

Section Loops.
Context {A S : Type}.

Lemma for_each_snoc (xs : list A) (x : A) (body : A -> S -> result S) (s : S) :
  for_each (xs ++ [x]) body s = bind (for_each xs body s) (body x).
Proof.
  revert s. induction xs as [|y xs IH]; intros s; simpl.
  - destruct (body x s); reflexivity.
  - destruct (body y s) as [s'|e]; simpl; [apply IH | reflexivity].
Qed.

Lemma for_each_ext (xs : list A) (f g : A -> S -> result S) (s : S) :
  (forall x s', f x s' = g x s') -> for_each xs f s = for_each xs g s.
Proof.
  intros Hfg. revert s. induction xs as [|y xs IH]; intros s; simpl; [done|].
  rewrite Hfg. destruct (g y s); simpl; [apply IH | done].
Qed.
End Loops.

Lemma len_app {A} (l1 l2 : list A) : len (l1 ++ l2) = len l1 + len l2.
Proof. unfold len. rewrite length_app. lia. Qed.

Lemma len_cons {A} (x : A) (l : list A) : len (x :: l) = 1 + len l.
Proof. unfold len. simpl. lia. Qed.

Lemma len_nonneg {A} (l : list A) : 0 <= len l.
Proof. unfold len. lia. Qed.

Lemma getitem_middle {A} (l1 l2 : list A) (x : A) :
  getitem (l1 ++ x :: l2) (len l1) = Ok x.
Proof.
  unfold getitem. pose proof (len_nonneg l1) as H0.
  destruct (Z.ltb_spec (len l1) 0) as [?|_]; [lia|].
  rewrite len_app, len_cons. pose proof (len_nonneg l2).
  destruct (Z.leb_spec 0 (len l1)); [|lia].
  destruct (Z.ltb_spec (len l1) (len l1 + (1 + len l2))); [|lia].
  simpl. unfold len. rewrite Nat2Z.id.
  rewrite list_lookup_middle; done.
Qed.

(** ** The chunk splitter *)

Module ChunkPdfFacts.
Import ChunkPdf.
Section Pages.
Context {Page : Type}.
Variable pdf_size : list Page -> Z.
Implicit Types (st : state (Page := Page)) (run : list Page)
  (f : gmap Z (list Page)).

(** *** The single-page loop *)

Lemma write_subchunks_chunks k i (pages : list Page) cs f :
  fst (write_subchunks k i pages cs f) = cs ++ seqZ (k + i) (len pages).
Proof.
  revert i cs f. induction pages as [|page pages IH]; intros i cs f; simpl.
  - by rewrite app_nil_r.
  - rewrite IH, len_cons, <- app_assoc. f_equal. simpl.
    pose proof (len_nonneg pages).
    rewrite (seqZ_cons (k + i)) by lia. do 2 f_equal; lia.
Qed.

Lemma write_subchunks_below k i (pages : list Page) cs f n :
  n < k + i -> snd (write_subchunks k i pages cs f) !! n = f !! n.
Proof.
  revert i cs f. induction pages as [|page pages IH]; intros i cs f Hn; simpl.
  - done.
  - rewrite IH by lia. apply lookup_insert_ne. lia.
Qed.

Lemma write_subchunks_written k i (pages : list Page) cs f (j : nat) page :
  pages !! j = Some page ->
  snd (write_subchunks k i pages cs f) !! (k + i + Z.of_nat j) = Some [page].
Proof.
  revert i cs f j. induction pages as [|p pages IH]; intros i cs f j Hj; simpl.
  - done.
  - destruct j as [|j]; simpl in Hj.
    + injection Hj as ->. rewrite write_subchunks_below by lia.
      replace (k + i + Z.of_nat 0) with (k + i) by lia.
      apply lookup_insert_eq.
    + replace (k + i + Z.of_nat (Datatypes.S j)) with (k + (i + 1) + Z.of_nat j) by lia.
      by apply IH.
Qed.

(** *** One emission *)

Lemma len_pieces_oversized max run :
  oversized pdf_size max run = true -> len (pieces pdf_size max run) = len run.
Proof. intros H. unfold pieces. rewrite H. unfold len. by rewrite length_map. Qed.

(** What [emit_chunk] does to a state whose accumulator holds [run]:
    it never raises, it advances the counter by the number of pieces of
    the run, appends their numbers, writes them, and leaves the smaller
    numbers of the primary folder as they were. *)
Lemma emit_run_spec max run st :
  exists st',
    emit_run pdf_size max run st = Ok st'
    /\ current_pages st' = []
    /\ chunk_counter st' = chunk_counter st + len (pieces pdf_size max run)
    /\ chunks st' =
         chunks st ++ seqZ (chunk_counter st) (len (pieces pdf_size max run))
    /\ (forall n, n < chunk_counter st ->
           chunk_folder st' !! n = chunk_folder st !! n)
    /\ (forall (j : nat) r, pieces pdf_size max run !! j = Some r ->
           chunk_folder st' !! (chunk_counter st + Z.of_nat j) = Some r)
    /\ (if oversized pdf_size max run
        then legacy_chunks st' = legacy_chunks st ++ [chunk_counter st]
             /\ legacy_folder st' = <[chunk_counter st := run]> (legacy_folder st)
        else legacy_chunks st' = legacy_chunks st
             /\ legacy_folder st' = legacy_folder st).
Proof.
  unfold emit_run, emit_chunk; simpl.
  destruct (oversized pdf_size max run) eqn:Hbig.
  - pose proof (len_pieces_oversized _ _ Hbig) as Hlen.
    unfold oversized in Hbig. rewrite Hbig.
    unfold shutil_move. rewrite lookup_insert_eq. simpl.
    eexists. split; [reflexivity|]. simpl.
    rewrite write_subchunks_chunks, Hlen, Z.add_0_r.
    repeat split.
    + intros n Hn. rewrite write_subchunks_below by lia.
      rewrite lookup_delete_ne by lia. apply lookup_insert_ne. lia.
    + intros j r Hj. unfold pieces, oversized in Hj. rewrite Hbig in Hj.
      rewrite list_lookup_fmap in Hj.
      destruct (run !! j) as [page|] eqn:Hpage; simpl in Hj; [|done].
      injection Hj as <-.
      pose proof (write_subchunks_written (chunk_counter st) 0 run
                    (chunks st)
                    (delete (chunk_counter st)
                       (<[chunk_counter st := run]> (chunk_folder st)))
                    j page Hpage) as Hw.
      by rewrite Z.add_0_r in Hw.
  - unfold oversized in Hbig. rewrite Hbig.
    eexists. split; [reflexivity|]. simpl.
    unfold pieces, oversized. rewrite Hbig. simpl.
    repeat split.
    + intros n Hn. apply lookup_insert_ne. lia.
    + intros j r Hj. destruct j as [|j]; simpl in Hj; [|done].
      injection Hj as <-. rewrite Z.add_0_r. apply lookup_insert_eq.
Qed.

Lemma emit_run_same_files max run st1 st2 :
  chunk_counter st1 = chunk_counter st2 ->
  chunks st1 = chunks st2 ->
  legacy_chunks st1 = legacy_chunks st2 ->
  chunk_folder st1 = chunk_folder st2 ->
  legacy_folder st1 = legacy_folder st2 ->
  emit_run pdf_size max run st1 = emit_run pdf_size max run st2.
Proof. unfold emit_run. by intros -> -> -> -> ->. Qed.

(** *** The page loop emits the runs *)

Lemma runs_from_nonempty P current (pages : list Page) :
  pages <> [] -> runs_from P current pages <> [].
Proof.
  revert current. induction pages as [|page pages IH]; intros current Hne; [done|].
  simpl. destruct pages as [|page' pages].
  - by rewrite orb_true_r.
  - rewrite orb_false_r. destruct (_ =? _); [done|]. by apply IH.
Qed.

Lemma loop_emits_runs (all_pages : list Page) P max :
  forall rest seen st,
    all_pages = seen ++ rest ->
    for_each (seqZ (len seen) (len rest))
      (loop_body pdf_size all_pages (len all_pages) P max) st
    = for_each (runs_from P (current_pages st) rest) (emit_run pdf_size max) st.
Proof.
  induction rest as [|page rest IH]; intros seen st Hall; [done|].
  rewrite len_cons. pose proof (len_nonneg rest) as Hrest.
  rewrite (seqZ_cons (len seen)) by lia.
  replace (Z.pred (1 + len rest)) with (len rest) by lia.
  replace (Z.succ (len seen)) with (len (seen ++ [page]))
    by (rewrite len_app, len_cons; unfold len; simpl; lia).
  cbn [for_each runs_from].
  unfold loop_body at 1. rewrite Hall at 1. rewrite getitem_middle.
  cbn [bind current_pages].
  assert (Hlast : (len seen =? len all_pages - 1)
                  = match rest with [] => true | _ :: _ => false end).
  { rewrite Hall, len_app, len_cons. destruct rest as [|p' rest'].
    - apply Z.eqb_eq. unfold len; simpl; lia.
    - apply Z.eqb_neq. rewrite len_cons. pose proof (len_nonneg rest'). lia. }
  rewrite Hlast.
  destruct ((len (current_pages st ++ [page]) =? P)
            || match rest with [] => true | _ :: _ => false end) eqn:Hemit.
  - cbn [for_each].
    change (emit_chunk pdf_size max _)
      with (emit_run pdf_size max (current_pages st ++ [page]) st).
    destruct (emit_run_spec max (current_pages st ++ [page]) st)
      as (st' & -> & Hcur & _).
    cbn [bind]. specialize (IH (seen ++ [page]) st'). rewrite Hcur in IH.
    apply IH. rewrite Hall, <- app_assoc. done.
  - cbn [bind]. rewrite (IH (seen ++ [page])) by (rewrite Hall, <- app_assoc; done).
    cbn [current_pages].
    assert (Hne : rest <> []).
    { destruct rest; [|done]. by rewrite orb_true_r in Hemit. }
    pose proof (runs_from_nonempty P (current_pages st ++ [page]) rest Hne) as Hr.
    destruct (runs_from P (current_pages st ++ [page]) rest) as [|r rs]; [done|].
    cbn [for_each]. f_equal.
Qed.

Lemma generate_pdf_chunks_emits_runs (pages : list Page) cf lf P max :
  generate_pdf_chunks pdf_size (Some pages) cf lf P max
  = for_each (runs P pages) (emit_run pdf_size max) (initial cf lf).
Proof.
  unfold generate_pdf_chunks, range, runs.
  apply (loop_emits_runs pages P max pages [] (initial cf lf)). done.
Qed.

(** *** The runs *)

Lemma runs_from_concat P current (pages : list Page) :
  pages <> [] -> concat (runs_from P current pages) = current ++ pages.
Proof.
  revert current. induction pages as [|page pages IH]; intros current Hne; [done|].
  simpl. destruct pages as [|page' pages].
  - rewrite orb_true_r. simpl. by rewrite app_nil_r.
  - rewrite orb_false_r. destruct (_ =? _).
    + cbn [concat]. rewrite (IH []) by done. by rewrite <- app_assoc.
    + rewrite IH by done. by rewrite <- app_assoc.
Qed.

Lemma runs_concat P (pages : list Page) : concat (runs P pages) = pages.
Proof.
  unfold runs. destruct pages as [|page pages]; [done|].
  by rewrite runs_from_concat.
Qed.

Lemma runs_from_not_empty P current (pages : list Page) :
  Forall (fun run => run <> []) (runs_from P current pages).
Proof.
  revert current. induction pages as [|page pages IH]; intros current; simpl.
  - constructor.
  - destruct (_ || _); [|apply IH].
    constructor; [|apply IH]. by destruct current.
Qed.

Lemma pieces_not_empty max run : run <> [] -> 1 <= len (pieces pdf_size max run).
Proof.
  intros Hne. unfold pieces. destruct (oversized _ _ _).
  - destruct run; [done|]. simpl. rewrite len_cons.
    pose proof (len_nonneg (map (fun page => [page]) run)). lia.
  - unfold len. simpl. lia.
Qed.

Lemma concat_pieces max run : concat (pieces pdf_size max run) = run.
Proof.
  unfold pieces. destruct (oversized _ _ _); simpl; [|apply app_nil_r].
  induction run as [|page run IH]; simpl; [done|]. by rewrite IH.
Qed.

Lemma concat_flat_map_pieces max (rs : list (list Page)) :
  concat (flat_map (pieces pdf_size max) rs) = concat rs.
Proof.
  induction rs as [|run rs IH]; simpl; [done|].
  by rewrite concat_app, concat_pieces, IH.
Qed.

Lemma number_after_snoc max (rs : list (list Page)) run :
  number_after pdf_size max (rs ++ [run])
  = number_after pdf_size max rs + len (pieces pdf_size max run).
Proof.
  unfold number_after. rewrite flat_map_app. simpl.
  rewrite app_nil_r, len_app. lia.
Qed.

Lemma number_after_mono max (rs1 rs2 : list (list Page)) run :
  Forall (fun run => run <> []) (rs1 ++ run :: rs2) ->
  number_after pdf_size max rs1 < number_after pdf_size max (rs1 ++ run :: rs2).
Proof.
  intros Hne. unfold number_after. rewrite flat_map_app. simpl.
  rewrite !len_app.
  apply Forall_app in Hne as [_ Hne]. apply Forall_cons in Hne as [Hrun _].
  pose proof (pieces_not_empty max run Hrun).
  pose proof (len_nonneg (flat_map (pieces pdf_size max) rs2)). lia.
Qed.

(** With a target of at least one page, every run but the last has
    exactly [P] pages, and the last has between 1 and [P]. *)
Lemma runs_from_lengths P current (pages : list Page) :
  1 <= P -> len current < P ->
  forall rs last,
    runs_from P current pages = rs ++ [last] ->
    Forall (fun run => len run = P) rs /\ 1 <= len last <= P.
Proof.
  intros HP. revert current.
  induction pages as [|page pages IH]; intros current Hcur rs last Hruns.
  - by destruct rs.
  - cbn [runs_from] in Hruns.
    assert (Hlen : len (current ++ [page]) = len current + 1)
      by (rewrite len_app; unfold len; simpl; lia).
    pose proof (len_nonneg current) as Hnn.
    destruct pages as [|page' pages].
    + rewrite orb_true_r in Hruns.
      destruct rs as [|r rs]; [|by destruct rs].
      injection Hruns as <-. split; [constructor|lia].
    + rewrite orb_false_r in Hruns.
      destruct (Z.eqb_spec (len (current ++ [page])) P) as [Heq|Hne].
      * destruct (exists_last (runs_from_nonempty P [] (page' :: pages) ltac:(done)))
          as (rs' & last' & Hrest).
        rewrite Hrest, app_comm_cons in Hruns.
        apply app_inj_tail in Hruns as [<- <-].
        destruct (IH [] ltac:(unfold len; simpl; lia) _ _ Hrest) as [Hrs Hlast].
        split; [by constructor|done].
      * apply (IH (current ++ [page])); [lia|done].
Qed.

Lemma runs_lengths P (pages : list Page) rs last :
  1 <= P -> runs P pages = rs ++ [last] ->
  Forall (fun run => len run = P) rs /\ 1 <= len last <= P.
Proof.
  intros HP. apply runs_from_lengths; [done|]. unfold len. simpl. lia.
Qed.

(** *** The state after all runs are emitted *)

Lemma emit_runs_spec max cf lf (rs : list (list Page)) :
  Forall (fun run => run <> []) rs ->
  exists st,
    for_each rs (emit_run pdf_size max) (initial cf lf) = Ok st
    /\ chunk_counter st = number_after pdf_size max rs
    /\ chunks st = seqZ 1 (len (flat_map (pieces pdf_size max) rs))
    /\ (forall (i : nat) r,
           flat_map (pieces pdf_size max) rs !! i = Some r ->
           chunk_folder st !! (1 + Z.of_nat i) = Some r)
    /\ (forall rs1 run rs2,
           rs = rs1 ++ run :: rs2 ->
           oversized pdf_size max run = true ->
           number_after pdf_size max rs1 ∈ legacy_chunks st
           /\ legacy_folder st !! number_after pdf_size max rs1 = Some run).
Proof.
  induction rs as [|run rs IH] using rev_ind; intros Hne.
  - exists (initial cf lf). split; [done|]. split; [done|]. split; [done|].
    split; [done|]. intros rs1 run rs2 H. by destruct rs1.
  - apply Forall_app in Hne as Hne'. destruct Hne' as [Hrs Hrun].
    apply Forall_cons in Hrun as [Hrun _].
    destruct (IH Hrs) as (st & Hst & Hcount & Hchunks & Hfiles & Hlegacy).
    destruct (emit_run_spec max run st)
      as (st' & Hst' & _ & Hcount' & Hchunks' & Hbelow & Hnew & Hleg').
    exists st'. rewrite for_each_snoc, Hst. cbn [bind].
    split; [done|]. split; [|split; [|split]].
    + by rewrite Hcount', Hcount, number_after_snoc.
    + rewrite Hchunks', Hchunks, Hcount. unfold number_after.
      rewrite flat_map_app. simpl. rewrite app_nil_r, len_app.
      pose proof (len_nonneg (flat_map (pieces pdf_size max) rs)).
      pose proof (len_nonneg (pieces pdf_size max run)).
      rewrite (seqZ_app 1) by lia. reflexivity.
    + intros i r. rewrite flat_map_app. simpl. rewrite app_nil_r.
      intros Hi. apply lookup_app_Some in Hi as [Hi|[Hge Hi]].
      * rewrite Hbelow; [by apply Hfiles|].
        apply lookup_lt_Some in Hi. rewrite Hcount. unfold number_after, len. lia.
      * specialize (Hnew _ _ Hi). rewrite Hcount in Hnew.
        unfold number_after, len in Hnew. unfold len.
        replace (1 + Z.of_nat i)
          with (1 + Z.of_nat (length (flat_map (pieces pdf_size max) rs))
                + Z.of_nat (i - length (flat_map (pieces pdf_size max) rs)))
          by lia.
        done.
    + intros rs1 r rs2 Hsplit Hbig.
      destruct rs2 as [|r2 rs2 _] using rev_ind.
      * apply app_inj_tail in Hsplit as [<- <-].
        rewrite Hbig in Hleg'. destruct Hleg' as [-> ->].
        rewrite <- Hcount. split; [|apply lookup_insert_eq].
        apply elem_of_app. right. by apply list_elem_of_singleton.
      * rewrite app_comm_cons, app_assoc in Hsplit.
        apply app_inj_tail in Hsplit as [-> <-].
        destruct (Hlegacy _ _ _ eq_refl Hbig) as [Hin Hfile].
        pose proof (number_after_mono max _ _ _ Hrs) as Hlt.
        rewrite <- Hcount in Hlt.
        destruct (oversized pdf_size max run); destruct Hleg' as [-> ->].
        -- split; [apply elem_of_app; by left|].
           rewrite lookup_insert_ne by lia. done.
        -- done.
Qed.

(** The files named by [chunks] hold the pieces of the runs, in order. *)
Lemma chunk_contents_pieces max st (rs : list (list Page)) :
  chunks st = seqZ 1 (len (flat_map (pieces pdf_size max) rs)) ->
  (forall (i : nat) r,
      flat_map (pieces pdf_size max) rs !! i = Some r ->
      chunk_folder st !! (1 + Z.of_nat i) = Some r) ->
  chunk_contents st = flat_map (pieces pdf_size max) rs.
Proof.
  intros Hchunks Hfiles. unfold chunk_contents. rewrite Hchunks.
  apply list_eq. intros i. rewrite list_lookup_fmap.
  destruct (flat_map (pieces pdf_size max) rs !! i) as [r|] eqn:Hi.
  - rewrite lookup_seqZ_lt by (apply lookup_lt_Some in Hi; unfold len; lia).
    simpl. by rewrite (Hfiles _ _ Hi).
  - rewrite lookup_seqZ_ge; [done|].
    apply lookup_ge_None in Hi. unfold len. lia.
Qed.

Lemma pieces_shape max run r :
  r ∈ pieces pdf_size max run ->
  (r = run /\ pdf_size run <= max) \/ (exists page, r = [page] /\ page ∈ run).
Proof.
  unfold pieces, oversized. destruct (Z.ltb_spec max (pdf_size run)); intros Hr.
  - right. apply list_elem_of_fmap in Hr as (page & -> & Hin). eauto.
  - left. apply list_elem_of_singleton in Hr. done.
Qed.

(** C1: for every page sequence and every pages-per-chunk target, the
    call succeeds, the emitted chunks are numbered 1, 2, 3, ... in the
    order of the list, every one of them is a non-empty file of the
    primary folder, and the concatenation of their pages in that order
    is the original page sequence. *)
Theorem chunks_cover_pages (pages : list Page) cf lf P max :
  exists st,
    generate_pdf_chunks pdf_size (Some pages) cf lf P max = Ok st
    /\ chunks st = seqZ 1 (len (chunks st))
    /\ Forall (fun n => is_Some (chunk_folder st !! n)) (chunks st)
    /\ Forall (fun r => r <> []) (chunk_contents st)
    /\ concat (chunk_contents st) = pages.
Proof.
  rewrite generate_pdf_chunks_emits_runs.
  pose proof (runs_from_not_empty P [] pages) as Hne. fold (runs P pages) in Hne.
  destruct (emit_runs_spec max cf lf (runs P pages) Hne)
    as (st & Hst & _ & Hchunks & Hfiles & _).
  pose proof (chunk_contents_pieces max st _ Hchunks Hfiles) as Hcontents.
  exists st. split; [done|]. split; [|split; [|split]].
  - rewrite Hchunks at 1. f_equal. rewrite Hchunks. unfold len.
    rewrite length_seqZ. lia.
  - apply Forall_forall. intros n Hn. rewrite Hchunks in Hn.
    apply elem_of_seqZ in Hn.
    destruct (lookup_lt_is_Some_2 (flat_map (pieces pdf_size max) (runs P pages))
                (Z.to_nat (n - 1))) as [r Hr]; [unfold len in Hn; lia|].
    apply Hfiles in Hr. exists r.
    replace (1 + Z.of_nat (Z.to_nat (n - 1))) with n in Hr by lia. done.
  - rewrite Hcontents. apply Forall_forall. intros r Hr.
    apply list_elem_of_In, in_flat_map in Hr as (run & Hrun & Hr).
    apply list_elem_of_In in Hrun, Hr.
    rewrite Forall_forall in Hne. specialize (Hne _ Hrun).
    apply pieces_shape in Hr as [[-> _]|(page & -> & _)]; done.
  - by rewrite Hcontents, concat_flat_map_pieces, runs_concat.
Qed.

(** C2 (amended): a run whose file exceeds the ceiling is recorded in
    the legacy list and kept in the legacy folder under the number [k]
    at which it was emitted; its [N] pages become the single-page chunks
    [k .. k+N-1] of the primary list; the run that follows is emitted at
    [k+N]; and when the run has at least two pages no chunk of the
    primary list holds the run itself. *)
Theorem oversized_run_is_split (pages : list Page) cf lf P max rs1 run rs2 :
  runs P pages = rs1 ++ run :: rs2 ->
  max < pdf_size run ->
  exists st,
    generate_pdf_chunks pdf_size (Some pages) cf lf P max = Ok st
    /\ let k := number_after pdf_size max rs1 in
       k ∈ legacy_chunks st
       /\ legacy_folder st !! k = Some run
       /\ (forall (j : nat) page,
              run !! j = Some page ->
              (k + Z.of_nat j) ∈ chunks st
              /\ chunk_folder st !! (k + Z.of_nat j) = Some [page])
       /\ number_after pdf_size max (rs1 ++ [run]) = k + len run
       /\ (forall next rs3 r,
              rs2 = next :: rs3 ->
              pieces pdf_size max next !! 0%nat = Some r ->
              chunk_folder st !! (k + len run) = Some r)
       /\ (2 <= len run ->
           forall n, n ∈ chunks st -> chunk_folder st !! n <> Some run).
Proof.
  intros Hruns Hsize.
  assert (Hbig : oversized pdf_size max run = true)
    by (unfold oversized; by apply Z.ltb_lt).
  rewrite generate_pdf_chunks_emits_runs.
  pose proof (runs_from_not_empty P [] pages) as Hne. fold (runs P pages) in Hne.
  destruct (emit_runs_spec max cf lf (runs P pages) Hne)
    as (st & Hst & _ & Hchunks & Hfiles & Hlegacy).
  exists st. split; [done|]. cbn zeta.
  destruct (Hlegacy _ _ _ Hruns Hbig) as [Hin Hfile].
  split; [done|]. split; [done|].
  pose proof (len_pieces_oversized max run Hbig) as Hlen.
  rewrite Hruns, flat_map_app in Hchunks, Hfiles. cbn [flat_map] in Hchunks, Hfiles.
  set (F1 := flat_map (pieces pdf_size max) rs1) in *.
  set (F2 := flat_map (pieces pdf_size max) rs2) in *.
  assert (Hk : number_after pdf_size max rs1 = 1 + Z.of_nat (length F1)) by done.
  split; [|split; [|split]].
  - intros j page Hj.
    assert (Hpiece : pieces pdf_size max run !! j = Some [page]).
    { unfold pieces. rewrite Hbig, list_lookup_fmap, Hj. done. }
    split.
    + rewrite Hchunks. apply elem_of_seqZ. rewrite !len_app, Hlen.
      apply lookup_lt_Some in Hj. pose proof (len_nonneg F2).
      unfold len in *. lia.
    + replace (number_after pdf_size max rs1 + Z.of_nat j)
        with (1 + Z.of_nat (length F1 + j)) by lia.
      apply Hfiles. rewrite lookup_app_r by lia.
      replace (length F1 + j - length F1)%nat with j by lia.
      by apply lookup_app_l_Some.
  - rewrite number_after_snoc, Hlen. done.
  - intros next rs3 r -> Hr.
    replace (number_after pdf_size max rs1 + len run)
      with (1 + Z.of_nat (length F1 + length (pieces pdf_size max run) + 0))
      by (unfold len in *; lia).
    apply Hfiles. rewrite <- Nat.add_assoc, lookup_app_r by lia.
    replace (length F1 + (length (pieces pdf_size max run) + 0) - length F1)%nat
      with (length (pieces pdf_size max run) + 0)%nat by lia.
    rewrite lookup_app_r by lia.
    replace (length (pieces pdf_size max run) + 0
             - length (pieces pdf_size max run))%nat with 0%nat by lia.
    unfold F2. cbn [flat_map]. by apply lookup_app_l_Some.
  - intros Htwo n Hn Hheld. rewrite Hchunks in Hn. apply elem_of_seqZ in Hn.
    destruct (lookup_lt_is_Some_2 (F1 ++ pieces pdf_size max run ++ F2)
                (Z.to_nat (n - 1))) as [r Hr]; [unfold len in Hn; lia|].
    pose proof (Hfiles _ _ Hr) as Hfile_n.
    replace (1 + Z.of_nat (Z.to_nat (n - 1))) with n in Hfile_n by lia.
    rewrite Hheld in Hfile_n. injection Hfile_n as <-.
    apply list_elem_of_lookup_2 in Hr.
    change (F1 ++ pieces pdf_size max run ++ F2)
      with (F1 ++ flat_map (pieces pdf_size max) (run :: rs2)) in Hr.
    unfold F1 in Hr. rewrite <- flat_map_app in Hr.
    apply list_elem_of_In, in_flat_map in Hr as (run' & _ & Hr).
    apply list_elem_of_In in Hr.
    apply pieces_shape in Hr as [[Heq Hsmall]|(page & Heq & _)].
    + rewrite <- Heq in Hsmall. lia.
    + rewrite Heq in Htwo. unfold len in Htwo. simpl in Htwo. lia.
Qed.

End Pages.

Lemma oversized_run_is_split_witness :
  runs 2 [1; 2; 9; 9; 3] = [[1; 2]] ++ [9; 9] :: [[3]]
  /\ 10 < sum_size [9; 9]
  /\ exists st,
       generate_pdf_chunks sum_size (Some [1; 2; 9; 9; 3]) ∅ ∅ 2 10 = Ok st
       /\ let k := number_after sum_size 10 [[1; 2]] in
          k ∈ legacy_chunks st
          /\ legacy_folder st !! k = Some [9; 9]
          /\ (forall (j : nat) page,
                 [9; 9] !! j = Some page ->
                 (k + Z.of_nat j) ∈ chunks st
                 /\ chunk_folder st !! (k + Z.of_nat j) = Some [page])
          /\ number_after sum_size 10 ([[1; 2]] ++ [[9; 9]]) = k + len [9; 9]
          /\ (forall next rs3 r,
                 [[3]] = next :: rs3 ->
                 pieces sum_size 10 next !! 0%nat = Some r ->
                 chunk_folder st !! (k + len [9; 9]) = Some r)
          /\ (2 <= len [9; 9] ->
              forall n, n ∈ chunks st -> chunk_folder st !! n <> Some [9; 9]).
Proof.
  split; [reflexivity|]. split; [reflexivity|].
  apply (oversized_run_is_split sum_size [1; 2; 9; 9; 3] ∅ ∅ 2 10
           [[1; 2]] [9; 9] [[3]]); reflexivity.
Defined.

(** C2 as stated fails for a run of one page: the page is over the
    ceiling, it goes to the legacy folder, and chunk 1 of the primary
    list holds that same run. *)
Lemma oversized_single_page_stays_primary :
  runs 1 [9] = [] ++ [9] :: []
  /\ 5 < sum_size [9]
  /\ exists st,
       generate_pdf_chunks sum_size (Some [9]) ∅ ∅ 1 5 = Ok st
       /\ legacy_folder st !! 1 = Some [9]
       /\ ~ (forall n, n ∈ chunks st -> chunk_folder st !! n <> Some [9]).
Proof.
  split; [reflexivity|]. split; [reflexivity|].
  eexists. split; [vm_compute; reflexivity|].
  split; [vm_compute; reflexivity|].
  intros H. apply (H 1).
  - cbn. apply list_elem_of_singleton. reflexivity.
  - vm_compute. reflexivity.
Qed.

(** The two splitting scenarios of the design document. *)
Example five_pages_under_ceiling :
  exists st,
    generate_pdf_chunks sum_size (Some [1; 1; 1; 1; 1]) ∅ ∅ 2 4194304 = Ok st
    /\ chunks st = [1; 2; 3]
    /\ chunk_contents st = [[1; 1]; [1; 1]; [1]]
    /\ legacy_chunks st = [].
Proof. eexists. split; [vm_compute; reflexivity|]. vm_compute. done. Qed.

Example second_chunk_over_ceiling :
  exists st,
    generate_pdf_chunks sum_size (Some [1; 2; 9; 9; 3]) ∅ ∅ 2 10 = Ok st
    /\ chunks st = [1; 2; 3; 4]
    /\ chunk_contents st = [[1; 2]; [9]; [9]; [3]]
    /\ legacy_chunks st = [2]
    /\ legacy_folder st !! 2 = Some [9; 9].
Proof. eexists. split; [vm_compute; reflexivity|]. vm_compute. done. Qed.

End ChunkPdfFacts.

(** ** The grid builder *)

Lemma getitem_in_range {A} (l : list A) (i : Z) (x : A) :
  0 <= i -> l !! Z.to_nat i = Some x -> getitem l i = Ok x.
Proof.
  intros Hi Hx. unfold getitem. apply lookup_lt_Some in Hx as Hlt.
  destruct (Z.ltb_spec i 0); [lia|].
  destruct (Z.leb_spec 0 i); [|lia].
  destruct (Z.ltb_spec i (len l)); [|unfold len in *; lia].
  simpl. by rewrite Hx.
Qed.

Lemma setitem_in_range {A} (l : list A) (i : Z) (x : A) :
  0 <= i < len l -> setitem l i x = Ok (<[Z.to_nat i := x]> l).
Proof.
  intros Hi. unfold setitem.
  destruct (Z.ltb_spec i 0); [lia|].
  destruct (Z.leb_spec 0 i); [|lia].
  destruct (Z.ltb_spec i (len l)); [|lia].
  done.
Qed.

Module AnalyzeChunksFacts.
Import AnalyzeChunks.

Lemma text_at_snoc_other cells cell r c :
  ~ covers r c cell -> text_at (cells ++ [cell]) r c = text_at cells r c.
Proof.
  intros Hno. unfold text_at. rewrite filter_app.
  rewrite (filter_cons_False _ cell []) by done.
  by rewrite filter_nil, app_nil_r.
Qed.

Lemma text_at_snoc_covered cells cell r c :
  covers r c cell ->
  text_at (cells ++ [cell]) r c = strip (or_empty (content cell)).
Proof.
  intros Hyes. unfold text_at. rewrite filter_app.
  rewrite (filter_cons_True _ cell []) by done.
  by rewrite filter_nil, last_snoc.
Qed.

Lemma initial_grid_holds R C :
  0 <= R -> 0 <= C ->
  grid_holds R C [] (map (fun _ => repeat_list ([] : str) C) (range R)).
Proof.
  intros HR HC. unfold grid_holds, range, repeat_list.
  split; [|split].
  - unfold len. rewrite length_map, length_seqZ. lia.
  - apply Forall_forall. intros row Hrow.
    apply list_elem_of_fmap in Hrow as (i & -> & _).
    unfold len. rewrite length_replicate. lia.
  - intros r c Hr Hc. exists (replicate (Z.to_nat C) []). split.
    + rewrite list_lookup_fmap, lookup_seqZ_lt by lia. done.
    + apply lookup_replicate_2. lia.
Qed.

Lemma place_cell_holds R C cells cell g :
  grid_holds R C cells g ->
  exists g', place_cell R C cell g = Ok g'
             /\ grid_holds R C (cells ++ [cell]) g'.
Proof.
  intros (Hrows & Hcols & Htext). unfold place_cell.
  destruct (row_index cell) as [r0|] eqn:Hr0;
    [destruct (column_index cell) as [c0|] eqn:Hc0|].
  2,3: exists g; split; [done|]; split; [done|]; split; [done|];
       intros r c Hr Hc; rewrite text_at_snoc_other;
       [by apply Htext | unfold covers; intros [? ?]; congruence].
  destruct ((0 <=? r0) && (r0 <? R) && (0 <=? c0) && (c0 <? C)) eqn:Hin.
  - apply andb_prop in Hin as [Hin Hc0hi]. apply andb_prop in Hin as [Hin Hc0lo].
    apply andb_prop in Hin as [Hr0lo Hr0hi].
    apply Z.leb_le in Hr0lo, Hc0lo. apply Z.ltb_lt in Hr0hi, Hc0hi.
    destruct (Htext r0 c0) as (row0 & Hrow0 & _); [lia..|].
    assert (Hlen0 : len row0 = C).
    { rewrite Forall_forall in Hcols. apply Hcols.
      by eapply list_elem_of_lookup_2. }
    unfold store. rewrite (getitem_in_range g r0 row0) by done. cbn [bind].
    rewrite setitem_in_range by lia. cbn [bind].
    rewrite setitem_in_range by lia.
    eexists. split; [reflexivity|]. split; [|split].
    + unfold len in *. by rewrite length_insert.
    + apply Forall_insert; [done|]. unfold len in *. by rewrite length_insert.
    + intros r c Hr Hc.
      destruct (decide (r = r0)) as [->|Hne].
      * eexists. split.
        { apply list_lookup_insert_eq. unfold len in *. lia. }
        destruct (decide (c = c0)) as [->|Hnec].
        -- rewrite text_at_snoc_covered by done.
           apply list_lookup_insert_eq. unfold len in *. lia.
        -- rewrite list_lookup_insert_ne by lia.
           rewrite text_at_snoc_other
             by (unfold covers; intros [? ?]; congruence).
           destruct (Htext r0 c) as (row & Hrow & Hcell); [lia..|].
           congruence.
      * rewrite list_lookup_insert_ne by lia.
        rewrite text_at_snoc_other
          by (unfold covers; intros [? ?]; congruence).
        by apply Htext.
  - exists g. split; [done|]. split; [done|]. split; [done|].
    intros r c Hr Hc. rewrite text_at_snoc_other; [by apply Htext|].
    unfold covers. intros [? ?].
    assert (r0 = r) by congruence. assert (c0 = c) by congruence. subst.
    apply andb_false_iff in Hin as [Hin|Hin];
      [apply andb_false_iff in Hin as [Hin|Hin];
       [apply andb_false_iff in Hin as [Hin|Hin]|]|].
    + apply Z.leb_gt in Hin. lia.
    + apply Z.ltb_ge in Hin. lia.
    + apply Z.leb_gt in Hin. lia.
    + apply Z.ltb_ge in Hin. lia.
Qed.

Lemma place_cells_hold R C cells :
  forall seen g,
    grid_holds R C seen g ->
    exists g', for_each cells (place_cell R C) g = Ok g'
               /\ grid_holds R C (seen ++ cells) g'.
Proof.
  induction cells as [|cell cells IH]; intros seen g Hg.
  - exists g. by rewrite app_nil_r.
  - destruct (place_cell_holds R C seen cell g Hg) as (g1 & Hg1 & Hholds).
    destruct (IH _ _ Hholds) as (g' & Hg' & Hholds').
    exists g'. cbn [for_each]. rewrite Hg1. cbn [bind].
    split; [done|]. by rewrite <- app_assoc in Hholds'.
Qed.

(** C5: for a table whose row count [R] and column count [C] (0 when
    unknown) are not negative, [build_grid_from_table] never raises and
    returns a grid of exactly [R] rows of exactly [C] cells; position
    [(r, c)] holds the stripped content of the last cell of the table
    whose indices are [(r, c)], and the empty string when there is none.
    A cell with an index outside the grid therefore appears nowhere. *)
Theorem build_grid_from_table_spec (t : table) :
  let R := or_zero (row_count t) in
  let C := or_zero (column_count t) in
  0 <= R -> 0 <= C ->
  exists g,
    build_grid_from_table t = Ok g
    /\ len g = R
    /\ Forall (fun row => len row = C) g
    /\ forall r c, 0 <= r < R -> 0 <= c < C ->
         exists row, g !! Z.to_nat r = Some row
                     /\ row !! Z.to_nat c = Some (text_at (cells t) r c).
Proof.
  intros R C HR HC. unfold build_grid_from_table. fold R C.
  destruct (place_cells_hold R C (cells t) [] _ (initial_grid_holds R C HR HC))
    as (g & Hg & Hholds).
  exists g. split; [done|]. exact Hholds.
Qed.

Lemma build_grid_from_table_spec_witness :
  0 <= or_zero (row_count sample_table)
  /\ 0 <= or_zero (column_count sample_table)
  /\ exists g,
       build_grid_from_table sample_table = Ok g
       /\ len g = or_zero (row_count sample_table)
       /\ Forall (fun row => len row = or_zero (column_count sample_table)) g
       /\ forall r c,
            0 <= r < or_zero (row_count sample_table) ->
            0 <= c < or_zero (column_count sample_table) ->
            exists row, g !! Z.to_nat r = Some row
                        /\ row !! Z.to_nat c
                           = Some (text_at (cells sample_table) r c).
Proof.
  split; [simpl; lia|]. split; [simpl; lia|].
  apply (build_grid_from_table_spec sample_table); simpl; lia.
Defined.

Example build_grid_sample :
  build_grid_from_table sample_table = Ok [[[]; lit "z"]; [[]; []]].
Proof. vm_compute. reflexivity. Qed.

End AnalyzeChunksFacts.

(** ** The merge normalizer *)

Module MergeCsvsFacts.
Import MergeCsvs.

(** *** [sorted] is a stable sort *)

Section Sorting.
Context {A : Type} (key : A -> Z).
Implicit Types (x f g : A) (l : list A).

Lemma insert_by_perm x l : insert_by key x l ≡ₚ x :: l.
Proof.
  induction l as [|y l IH]; simpl; [done|].
  destruct (key x <=? key y); [done|]. rewrite IH. apply Permutation_swap.
Qed.

Lemma sorted_perm l : sorted l key ≡ₚ l.
Proof.
  induction l as [|x l IH]; simpl; [done|].
  rewrite insert_by_perm. by constructor.
Qed.

Lemma insert_by_ascending x l :
  ascending key l -> ascending key (insert_by key x l).
Proof.
  unfold ascending. induction l as [|y l IH]; intros Hl; simpl.
  - repeat constructor.
  - apply StronglySorted_inv in Hl as [Hl Hy].
    destruct (Z.leb_spec (key x) (key y)) as [Hle|Hgt].
    + constructor; [by constructor|]. constructor; [done|].
      eapply Forall_impl; [exact Hy|]. intros z Hz. simpl in Hz. lia.
    + constructor; [by apply IH|]. rewrite insert_by_perm.
      constructor; [lia|done].
Qed.

Lemma sorted_ascending l : ascending key (sorted l key).
Proof.
  induction l as [|x l IH]; simpl; [constructor|].
  by apply insert_by_ascending.
Qed.

Lemma before_cons_head x g l : g ∈ l -> before x g (x :: l).
Proof.
  intros Hg. apply list_elem_of_split in Hg as (l2 & l3 & ->).
  by exists [], l2, l3.
Qed.

Lemma before_cons x f g l : before f g l -> before f g (x :: l).
Proof. intros (l1 & l2 & l3 & ->). by exists (x :: l1), l2, l3. Qed.

Lemma before_inv_cons x f g l :
  before f g (x :: l) -> (f = x /\ g ∈ l) \/ before f g l.
Proof.
  intros (l1 & l2 & l3 & Heq). destruct l1 as [|y l1]; simpl in Heq.
  - injection Heq as <- ->. left. split; [done|].
    apply elem_of_app. right. apply list_elem_of_here.
  - injection Heq as <- ->. right. by exists l1, l2, l3.
Qed.

(** Inserting an element keeps the order of the others. *)
Lemma before_insert_by x f g l :
  before f g l -> before f g (insert_by key x l).
Proof.
  induction l as [|y l IH]; intros Hfg; simpl.
  - destruct Hfg as (l1 & l2 & l3 & Heq). by destruct l1.
  - destruct (key x <=? key y); [by apply before_cons|].
    apply before_inv_cons in Hfg as [[-> Hg]|Hfg].
    + apply before_cons_head. rewrite insert_by_perm. by apply elem_of_cons; right.
    + by apply before_cons, IH.
Qed.

(** The inserted element goes before those that are not smaller. *)
Lemma insert_by_before x g l :
  g ∈ l -> key x <= key g -> before x g (insert_by key x l).
Proof.
  induction l as [|y l IH]; intros Hg Hle; simpl.
  - by apply elem_of_nil in Hg.
  - destruct (Z.leb_spec (key x) (key y)) as [_|Hgt];
      [by apply before_cons_head|].
    apply elem_of_cons in Hg as [->|Hg]; [lia|].
    by apply before_cons, IH.
Qed.

(** The inserted element goes after those that are smaller. *)
Lemma insert_by_after x f l :
  ascending key l -> f ∈ l -> key f < key x -> before f x (insert_by key x l).
Proof.
  unfold ascending. induction l as [|y l IH]; intros Hl Hf Hlt; simpl.
  - by apply elem_of_nil in Hf.
  - apply StronglySorted_inv in Hl as [Hl Hy]. rewrite Forall_forall in Hy.
    destruct (Z.leb_spec (key x) (key y)) as [Hle|Hgt].
    + apply elem_of_cons in Hf as [->|Hf]; [lia|].
      specialize (Hy _ Hf). simpl in Hy. lia.
    + apply elem_of_cons in Hf as [->|Hf].
      * apply before_cons_head. rewrite insert_by_perm. apply list_elem_of_here.
      * by apply before_cons, IH.
Qed.

(** Ties keep their order of enumeration. *)
Lemma sorted_stable f g l :
  before f g l -> key f <= key g -> before f g (sorted l key).
Proof.
  induction l as [|x l IH]; intros Hfg Hle; simpl.
  - destruct Hfg as (l1 & l2 & l3 & Heq). by destruct l1.
  - apply before_inv_cons in Hfg as [[-> Hg]|Hfg].
    + apply insert_by_before; [|done]. by rewrite sorted_perm.
    + by apply before_insert_by, IH.
Qed.

(** A smaller key comes first wherever the two were enumerated. *)
Lemma sorted_by_key f g l :
  f ∈ l -> g ∈ l -> key f < key g -> before f g (sorted l key).
Proof.
  induction l as [|x l IH]; intros Hf Hg Hlt; simpl.
  - by apply elem_of_nil in Hf.
  - apply elem_of_cons in Hf as [->|Hf]; apply elem_of_cons in Hg as [->|Hg].
    + lia.
    + apply insert_by_before; [by rewrite sorted_perm | lia].
    + apply insert_by_after; [apply sorted_ascending | by rewrite sorted_perm | done].
    + by apply before_insert_by, IH.
Qed.

End Sorting.

(** *** The ordering key *)

Lemma span_digits_spec s :
  s = fst (span_digits s) ++ snd (span_digits s)
  /\ Forall (fun c => is_digit c = true) (fst (span_digits s))
  /\ (forall c, head (snd (span_digits s)) = Some c -> is_digit c = false).
Proof.
  induction s as [|c s IH]; simpl.
  - repeat split; [constructor|done].
  - destruct (is_digit c) eqn:Hc.
    + destruct (span_digits s) as [digits rest]. simpl in *.
      destruct IH as (-> & Hd & Hrest). repeat split; [by constructor|done].
    + simpl. repeat split; [constructor|]. intros c' [= <-]. done.
Qed.

Lemma span_digits_app digits rest :
  Forall (fun c => is_digit c = true) digits ->
  (forall c, head rest = Some c -> is_digit c = false) ->
  span_digits (digits ++ rest) = (digits, rest).
Proof.
  intros Hd Hrest. induction Hd as [|c digits Hc _ IH]; simpl.
  - destruct rest as [|c rest]; [done|]. simpl. by rewrite (Hrest c).
  - by rewrite Hc, IH.
Qed.

(** No match starts inside the part of the name that precedes the
    trailing digits. *)
Lemma match_here_before_digits prefix digits :
  prefix <> [] ->
  (forall c, last prefix = Some c -> is_digit c = false) ->
  match_here (prefix ++ digits ++ lit ".csv") = None.
Proof.
  intros Hne Hlast. unfold match_here.
  pose proof (span_digits_spec (prefix ++ digits ++ lit ".csv")) as (Heq & Hd & _).
  destruct (span_digits (prefix ++ digits ++ lit ".csv")) as [d rest].
  simpl in *. destruct d as [|c d]; [done|].
  destruct (dot_csv_at_end rest) eqn:Hend; [exfalso|done].
  apply orb_prop in Hend as [Hend|Hend]; apply bool_decide_eq_true in Hend; subst rest.
  - rewrite app_assoc in Heq. apply app_inv_tail in Heq.
    rewrite <- Heq in Hd. apply Forall_app in Hd as [Hd _].
    destruct (last prefix) as [c'|] eqn:Hc'; [|by apply last_None in Hc'].
    specialize (Hlast _ eq_refl).
    apply last_Some_elem_of in Hc'. rewrite Forall_forall in Hd.
    specialize (Hd _ Hc'). congruence.
  - apply (f_equal last) in Heq. revert Heq.
    rewrite !app_assoc.
    change (lit ".csv") with ([46; 99; 115]%N ++ [118%N]).
    rewrite !app_assoc, !last_snoc. done.
Qed.

Lemma re_search_skip prefix digits :
  (forall c, last prefix = Some c -> is_digit c = false) ->
  re_search (prefix ++ digits ++ lit ".csv") = re_search (digits ++ lit ".csv").
Proof.
  induction prefix as [|c prefix IH]; intros Hlast; [done|].
  pose proof (match_here_before_digits (c :: prefix) digits) as Hm.
  rewrite <- app_comm_cons in *. cbn [re_search]. rewrite Hm by done.
  apply IH. intros c' Hc'. apply Hlast.
  destruct prefix; [done|]. by rewrite last_cons_cons.
Qed.

Lemma re_search_digits digits :
  Forall (fun c => is_digit c = true) digits ->
  re_search (digits ++ lit ".csv")
  = match digits with [] => None | _ :: _ => Some digits end.
Proof.
  intros Hd. destruct digits as [|c digits]; [reflexivity|].
  cbn [app re_search]. unfold match_here.
  change (c :: digits ++ lit ".csv") with ((c :: digits) ++ lit ".csv").
  rewrite span_digits_app; [done|done|].
  intros c' [= <-]. reflexivity.
Qed.

(** The key of a [.csv] name is the number written by the digits that
    end its stem, and 0 when the stem does not end with a digit. *)
Lemma natural_key_trailing stem content :
  natural_key {| name := stem ++ lit ".csv"; content := content |}
  = int (trailing_digits stem).
Proof.
  unfold natural_key, trailing_digits. cbn [name].
  pose proof (span_digits_spec (reverse stem)) as (Heq & Hd & Hrest).
  destruct (span_digits (reverse stem)) as [d rest]. simpl in *.
  apply (f_equal reverse) in Heq.
  rewrite reverse_involutive, reverse_app in Heq. rewrite Heq.
  rewrite <- app_assoc, re_search_skip, re_search_digits.
  - by destruct (reverse d).
  - by apply Forall_reverse.
  - intros c. rewrite last_reverse. apply Hrest.
Qed.

(** *** The two passes *)

Lemma is_empty_row_blank row : is_empty_row row = true <-> blank row.
Proof.
  unfold is_empty_row, blank. induction row as [|c row IH]; simpl.
  - split; [constructor|done].
  - rewrite andb_true_iff, bool_decide_eq_true, IH, Forall_cons. done.
Qed.

Lemma dropped_not_kept drop row :
  drop && is_empty_row row = true <-> ~ kept drop row.
Proof.
  unfold kept. rewrite andb_true_iff, is_empty_row_blank. split.
  - intros [-> Hblank] Hkept. by apply Hkept.
  - intros Hno. destruct drop.
    + split; [done|]. destruct (decide (blank row)) as [|Hnb]; [done|].
      exfalso. apply Hno. done.
    + exfalso. apply Hno. done.
Qed.

Lemma max_width_nonneg files : 0 <= max_width files.
Proof.
  unfold max_width. induction (map len (flat_map rows_of files)); simpl; lia.
Qed.

Lemma fold_max_rows_nonneg (rows : list csv_row) m :
  0 <= m ->
  fold_left (fun max_cols row => Z.max max_cols (len row)) rows m
  = Z.max m (foldr Z.max 0 (map len rows)).
Proof.
  revert m. induction rows as [|r rows IH]; intros m Hm; cbn [fold_left map foldr].
  - lia.
  - rewrite IH by lia. lia.
Qed.

Lemma max_width_cons f files :
  max_width (f :: files)
  = Z.max (foldr Z.max 0 (map len (rows_of f))) (max_width files).
Proof.
  unfold max_width. simpl. rewrite map_app.
  induction (map len (rows_of f)) as [|n ns IH]; simpl.
  - pose proof (max_width_nonneg files) as H. unfold max_width in H. lia.
  - rewrite IH. lia.
Qed.

(** The width scan returns the width of the widest row. *)
Lemma scan_files_readable files m :
  Forall readable files -> 0 <= m ->
  for_each files scan_file m = Ok (Z.max m (max_width files)).
Proof.
  intros Hr. revert m. induction Hr as [|f files [rows Hf] _ IH]; intros m Hm.
  - simpl. pose proof (max_width_nonneg []). unfold max_width in *. simpl. f_equal. lia.
  - cbn [for_each]. unfold scan_file at 1, iter_csv_rows. rewrite Hf. cbn [bind].
    rewrite fold_max_rows_nonneg by done. rewrite IH by lia.
    rewrite max_width_cons. unfold rows_of. rewrite Hf. f_equal. lia.
Qed.

(** The width scan stops at the first artifact that cannot be read. *)
Lemma scan_files_unreadable files m :
  ~ Forall readable files -> for_each files scan_file m = Raise CsvError.
Proof.
  revert m. induction files as [|f files IH]; intros m Hno.
  - exfalso. apply Hno. constructor.
  - cbn [for_each]. unfold scan_file at 1, iter_csv_rows.
    destruct (content f) as [rows|] eqn:Hf; [|done]. cbn [bind].
    apply IH. intros Hall. apply Hno. constructor; [|done].
    unfold readable. rewrite Hf. by eexists.
Qed.

Lemma write_rows add drop f W (rows : list csv_row) out wrote :
  fold_left (write_row add drop f W) rows (out, wrote)
  = (out ++ map (fun row => provenance add f ++ pad_row row W)
              (filter (kept drop) rows),
     wrote + len (filter (kept drop) rows)).
Proof.
  revert out wrote. induction rows as [|row rows IH]; intros out wrote.
  - simpl. rewrite app_nil_r. unfold len. simpl. f_equal. lia.
  - cbn [fold_left]. unfold write_row at 2.
    destruct (drop && is_empty_row row) eqn:Hdrop.
    + apply dropped_not_kept in Hdrop.
      rewrite filter_cons_False by done. apply IH.
    + assert (Hkept : kept drop row).
      { destruct (decide (kept drop row)) as [|Hno]; [done|].
        apply dropped_not_kept in Hno. congruence. }
      rewrite filter_cons_True by done.
      replace (if add then (out ++ [name f :: pad_row row W], wrote + 1)
               else (out ++ [pad_row row W], wrote + 1))
        with (out ++ [provenance add f ++ pad_row row W], wrote + 1)
        by (by destruct add).
      rewrite IH. cbn [map]. rewrite <- app_assoc, len_cons. f_equal. lia.
Qed.

(** The output pass writes the rows kept of each artifact, in order. *)
Lemma write_files_readable add drop W files out wrote :
  Forall readable files ->
  write_files add drop W files out wrote
  = (out ++ flat_map (written_for add drop W) files,
     Ok (wrote + len (flat_map (written_for add drop W) files))).
Proof.
  intros Hr. revert out wrote.
  induction Hr as [|f files [rows Hf] _ IH]; intros out wrote.
  - simpl. rewrite app_nil_r. unfold len. simpl. do 2 f_equal. lia.
  - cbn [write_files]. unfold iter_csv_rows. rewrite Hf.
    rewrite write_rows, IH. cbn [flat_map].
    assert (Hw : written_for add drop W f
                 = map (fun row => provenance add f ++ pad_row row W)
                     (filter (kept drop) rows))
      by (unfold written_for, rows_of; by rewrite Hf).
    rewrite Hw, <- app_assoc, len_app. f_equal. f_equal.
    unfold len. rewrite length_map. lia.
Qed.

(** The three outcomes of [merge_csvs]. *)
Lemma merge_csvs_cases fs add drop :
  let files := sorted (glob_csv (csv_dir fs)) natural_key in
  (files = [] /\ merge_csvs fs add drop = (fs, Ok 0))
  \/ (files <> [] /\ ~ Forall readable files
      /\ merge_csvs fs add drop = (fs, Raise CsvError))
  \/ (files <> [] /\ Forall readable files
      /\ merge_csvs fs add drop
         = ({| csv_dir := csv_dir fs;
               out_file := Some (merged_rows add drop files) |},
            Ok (len (merged_rows add drop files)))).
Proof.
  intros files. unfold merge_csvs. fold files.
  destruct files as [|f files'] eqn:Hfiles; [by left|]. right.
  destruct (decide (Forall readable (f :: files'))) as [Hr|Hno].
  - right. split; [done|]. split; [done|].
    rewrite scan_files_readable by done.
    rewrite write_files_readable by done.
    pose proof (max_width_nonneg (f :: files')).
    replace (Z.max 0 (max_width (f :: files'))) with (max_width (f :: files')) by lia.
    done.
  - left. split; [done|]. split; [done|].
    by rewrite scan_files_unreadable.
Qed.


(** *** Widths *)

Lemma pad_row_len row W : 0 <= W -> len (pad_row row W) = W.
Proof.
  intros HW. unfold pad_row, repeat_list, slice_to.
  destruct (Z.ltb_spec (len row) W) as [Hlt|Hge].
  - rewrite len_app. unfold len in *. rewrite length_replicate. lia.
  - destruct (Z.ltb_spec W 0); [lia|].
    unfold len in *. rewrite length_take. lia.
Qed.

(** A row that is not longer than the width keeps all its cells: the
    slice [row[:W]] is taken only when the row has exactly [W] cells,
    and then it is the whole row. *)
Lemma pad_row_keeps_cells row W :
  len row <= W -> pad_row row W = row ++ repeat_list [] (W - len row).
Proof.
  intros Hle. unfold pad_row, slice_to.
  destruct (Z.ltb_spec (len row) W) as [Hlt|Hge]; [done|].
  assert (W = len row) as -> by lia.
  pose proof (len_nonneg row). destruct (Z.ltb_spec (len row) 0); [lia|].
  unfold len, repeat_list. rewrite Nat2Z.id, take_ge by lia.
  rewrite Z.sub_diag. simpl. by rewrite app_nil_r.
Qed.

Lemma foldr_max_bound (ns : list Z) n : n ∈ ns -> n <= foldr Z.max 0 ns.
Proof.
  induction ns as [|m ns IH]; intros Hn; [by apply elem_of_nil in Hn|].
  simpl. apply elem_of_cons in Hn as [->|Hn]; [lia|].
  specialize (IH Hn). lia.
Qed.

Lemma foldr_max_attained (ns : list Z) :
  foldr Z.max 0 ns = 0 \/ foldr Z.max 0 ns ∈ ns.
Proof.
  induction ns as [|m ns IH]; simpl; [by left|].
  destruct (Z.max_spec m (foldr Z.max 0 ns)) as [[_ ->]|[_ ->]].
  - destruct IH as [->|IH]; [by left|]. right. by apply elem_of_cons; right.
  - right. apply list_elem_of_here.
Qed.

(** No row of any artifact is longer than [max_width]. *)
Lemma row_len_le_max_width files f row :
  f ∈ files -> row ∈ rows_of f -> len row <= max_width files.
Proof.
  intros Hf Hrow. unfold max_width. apply foldr_max_bound.
  apply list_elem_of_In, in_map, in_flat_map. exists f.
  split; by apply list_elem_of_In.
Qed.

(** [max_width] is the length of some row, unless it is 0. *)
Lemma max_width_attained files :
  max_width files = 0
  \/ exists f row, f ∈ files /\ row ∈ rows_of f /\ len row = max_width files.
Proof.
  unfold max_width. destruct (foldr_max_attained (map len (flat_map rows_of files)))
    as [->|Hin]; [by left|]. right.
  apply list_elem_of_In, in_map_iff in Hin as (row & Hlen & Hrow).
  apply in_flat_map in Hrow as (f & Hf & Hrow).
  exists f, row. by rewrite <- !list_elem_of_In in *.
Qed.

Lemma max_width_le files files' :
  files ≡ₚ files' -> max_width files <= max_width files'.
Proof.
  intros Hperm. destruct (max_width_attained files) as [->|(f & row & Hf & Hrow & <-)].
  - apply max_width_nonneg.
  - apply (row_len_le_max_width files' f row); [|done]. by rewrite <- Hperm.
Qed.

(** [max_width] does not depend on the order of the artifacts. *)
Lemma max_width_perm files files' :
  files ≡ₚ files' -> max_width files = max_width files'.
Proof.
  intros Hperm. pose proof (max_width_le _ _ Hperm).
  symmetry in Hperm. pose proof (max_width_le _ _ Hperm). lia.
Qed.

Lemma max_width_sorted listing :
  max_width (sorted listing natural_key) = max_width listing.
Proof. apply max_width_perm, sorted_perm. Qed.

Lemma sorted_nil_inv (listing : list dir_entry) :
  sorted listing natural_key = [] -> listing = [].
Proof.
  intros H. symmetry. apply Permutation_nil_l. rewrite <- H. apply sorted_perm.
Qed.

(** What a successful call leaves behind: nothing new when no artifact
    is found, the merged rows otherwise. *)
Lemma merge_csvs_ok fs add drop fs' wrote :
  merge_csvs fs add drop = (fs', Ok wrote) ->
  let listing := glob_csv (csv_dir fs) in
  let files := sorted listing natural_key in
  (listing = [] /\ fs' = fs /\ wrote = 0)
  \/ (listing <> [] /\ Forall readable files
      /\ fs' = {| csv_dir := csv_dir fs;
                  out_file := Some (merged_rows add drop files) |}
      /\ wrote = len (merged_rows add drop files)).
Proof.
  intros Hrun. cbv zeta.
  pose proof (merge_csvs_cases fs add drop) as Hcases. cbv zeta in Hcases.
  destruct Hcases as [[Hnil Heq]|[(_ & _ & Heq)|(Hne & Hr & Heq)]];
    rewrite Heq in Hrun.
  - left. injection Hrun as <- <-. split; [by apply sorted_nil_inv|done].
  - discriminate.
  - right. injection Hrun as <- <-. split; [|done].
    intros Hnil. apply Hne. by rewrite Hnil.
Qed.

Lemma flat_map_ext_elem {A B} (f g : A -> list B) (l : list A) :
  (forall x, x ∈ l -> f x = g x) -> flat_map f l = flat_map g l.
Proof.
  induction l as [|x l IH]; intros Hfg; simpl; [done|].
  rewrite Hfg by apply list_elem_of_here. rewrite IH; [done|].
  intros y Hy. apply Hfg. by apply elem_of_cons; right.
Qed.

Lemma map_ext_elem {A B} (f g : A -> B) (l : list A) :
  (forall x, x ∈ l -> f x = g x) -> map f l = map g l.
Proof.
  intros Hfg. apply map_ext_in. intros x Hx. apply Hfg. by apply list_elem_of_In.
Qed.

Lemma written_for_shape add drop W f r :
  0 <= W -> r ∈ written_for add drop W f ->
  exists data, r = provenance add f ++ data /\ len data = W.
Proof.
  intros HW Hr. unfold written_for in Hr.
  apply list_elem_of_fmap in Hr as (row & -> & _).
  exists (pad_row row W). split; [done|]. by apply pad_row_len.
Qed.

(** *** The claims about the merged artifact *)

(** C3: whatever the artifacts and the two toggles, every row written
    to the merged artifact is made of [W] data cells, preceded by the
    provenance cell when [add_source_column] is set, where [W] is the
    greatest length of a row of any artifact, blank rows included. *)
Theorem merged_rows_have_width fs add drop fs' wrote :
  merge_csvs fs add drop = (fs', Ok wrote) ->
  let listing := glob_csv (csv_dir fs) in
  let W := max_width listing in
  (forall f row, f ∈ listing -> row ∈ rows_of f -> len row <= W)
  /\ (W = 0 \/ exists f row, f ∈ listing /\ row ∈ rows_of f /\ len row = W)
  /\ ((listing = [] /\ fs' = fs /\ wrote = 0)
      \/ exists out,
           out_file fs' = Some out /\ wrote = len out
           /\ Forall (fun r => exists f data,
                         f ∈ listing /\ r = provenance add f ++ data
                         /\ len data = W) out).
Proof.
  intros Hrun. cbv zeta.
  split; [apply row_len_le_max_width|]. split; [apply max_width_attained|].
  apply merge_csvs_ok in Hrun. cbv zeta in Hrun.
  destruct Hrun as [?|(_ & _ & -> & ->)]; [by left|]. right.
  eexists. split; [reflexivity|]. split; [reflexivity|].
  apply Forall_forall. intros r Hr. unfold merged_rows in Hr.
  apply list_elem_of_In, in_flat_map in Hr as (f & Hf & Hr).
  apply list_elem_of_In in Hf, Hr. rewrite max_width_sorted in Hr.
  apply written_for_shape in Hr as (data & -> & Hlen); [|apply max_width_nonneg].
  exists f, data. split; [|done]. by rewrite <- (sorted_perm natural_key).
Qed.

(** C6: with [drop_empty_rows] set, the merged artifact holds, for each
    artifact in order, the rows that are not blank (a row is blank when
    every cell is empty after trimming), each padded to the width [W]
    of the widest row of all artifacts, the dropped rows included. *)
Theorem blank_rows_are_dropped fs add fs' wrote :
  merge_csvs fs add true = (fs', Ok wrote) ->
  let listing := glob_csv (csv_dir fs) in
  let W := max_width listing in
  listing <> [] ->
  out_file fs'
  = Some (flat_map
            (fun f => map (fun row => provenance add f ++ pad_row row W)
                        (filter (fun row => ~ blank row) (rows_of f)))
            (sorted listing natural_key)).
Proof.
  intros Hrun. cbv zeta. intros Hne.
  apply merge_csvs_ok in Hrun. cbv zeta in Hrun.
  destruct Hrun as [[? _]|(_ & _ & -> & _)]; [done|].
  cbn [out_file]. f_equal. unfold merged_rows. rewrite max_width_sorted.
  apply flat_map_ext_elem. intros f _. unfold written_for. f_equal.
  apply list_filter_iff. intros row. unfold kept. split; [auto|done].
Qed.

(** C10 (amended): no row handed to [pad_row] is longer than the
    width.  The rows of fewer than [W] cells take the first branch of
    [pad_row]; its second branch, the slice [row[:W]], is taken by the
    rows of exactly [W] cells and by no other row, and for them the
    slice is the whole row.  So [pad_row] only appends empty cells, and
    the data cells of every merged row are the cells of the input row
    followed by the padding: no cell is discarded. *)
Theorem pad_row_never_truncates fs add drop fs' wrote :
  merge_csvs fs add drop = (fs', Ok wrote) ->
  let listing := glob_csv (csv_dir fs) in
  let W := max_width listing in
  (forall f row,
      f ∈ listing -> row ∈ rows_of f ->
      len row <= W
      /\ pad_row row W = row ++ repeat_list [] (W - len row)
      /\ ((len row <? W) = false <-> len row = W)
      /\ ((len row <? W) = false ->
          pad_row row W = slice_to row W /\ slice_to row W = row))
  /\ (listing <> [] ->
      out_file fs'
      = Some (flat_map
                (fun f => map (fun row => provenance add f ++ row
                                         ++ repeat_list [] (W - len row))
                            (filter (kept drop) (rows_of f)))
                (sorted listing natural_key))).
Proof.
  intros Hrun. cbv zeta. split.
  - intros f row Hf Hrow.
    pose proof (row_len_le_max_width _ _ _ Hf Hrow) as Hle.
    split; [done|]. split; [by apply pad_row_keeps_cells|].
    split; [rewrite Z.ltb_ge; lia|].
    intros Hge. pose proof (pad_row_keeps_cells row _ Hle) as Hpad.
    unfold pad_row in Hpad |- *. rewrite Hge in Hpad |- *.
    split; [done|]. rewrite Hpad.
    apply Z.ltb_ge in Hge.
    replace (max_width (glob_csv (csv_dir fs)) - len row) with 0 by lia.
    apply app_nil_r.
  - intros Hne. apply merge_csvs_ok in Hrun. cbv zeta in Hrun.
    destruct Hrun as [[? _]|(_ & _ & -> & _)]; [done|].
    cbn [out_file]. f_equal. unfold merged_rows. rewrite max_width_sorted.
    apply flat_map_ext_elem. intros f Hf. unfold written_for.
    apply map_ext_elem. intros row Hrow. f_equal.
    apply pad_row_keeps_cells, (row_len_le_max_width _ f).
    + by rewrite <- (sorted_perm natural_key).
    + by apply list_elem_of_filter in Hrow as [_ ?].
Qed.

Lemma before_elem_of {A} (f g : A) (l : list A) :
  before f g l -> f ∈ l /\ g ∈ l.
Proof.
  intros (l1 & l2 & l3 & ->). split.
  - apply elem_of_app. right. apply list_elem_of_here.
  - apply elem_of_app. right. apply elem_of_cons. right.
    apply elem_of_app. right. apply list_elem_of_here.
Qed.

Lemma glob_csv_name dir f :
  f ∈ glob_csv dir -> exists stem, name f = stem ++ lit ".csv".
Proof.
  unfold glob_csv. destruct dir as [entries|]; [|by intros ?%elem_of_nil].
  intros Hf. apply list_elem_of_filter in Hf as [[stem Hname] _]. eauto.
Qed.

(** C4 (amended): the key of every artifact is the number written by
    the digits that end the stem of its name (0 when the stem does not
    end with a digit); an artifact with a smaller key has all its rows
    before those of an artifact with a greater key, and two artifacts
    with the same key keep their order of enumeration. *)
Theorem merge_orders_by_trailing_number fs add drop fs' wrote f g :
  merge_csvs fs add drop = (fs', Ok wrote) ->
  let listing := glob_csv (csv_dir fs) in
  let W := max_width listing in
  (f ∈ listing /\ g ∈ listing /\ natural_key f < natural_key g)
  \/ (before f g listing /\ natural_key f = natural_key g) ->
  (forall h, h ∈ listing ->
     exists stem, name h = stem ++ lit ".csv"
                  /\ natural_key h = int (trailing_digits stem))
  /\ exists pre mid post,
       out_file fs'
       = Some (pre ++ written_for add drop W f ++ mid
                   ++ written_for add drop W g ++ post).
Proof.
  intros Hrun. cbv zeta. intros Horder. split.
  - intros h Hh. apply glob_csv_name in Hh as [stem Hname].
    exists stem. split; [done|]. destruct h as [n c]. simpl in Hname. subst n.
    apply natural_key_trailing.
  - assert (Hbefore : before f g (sorted (glob_csv (csv_dir fs)) natural_key)).
    { destruct Horder as [(Hf & Hg & Hlt)|[Hfg Heq]].
      - by apply sorted_by_key.
      - apply sorted_stable; [done|lia]. }
    apply merge_csvs_ok in Hrun. cbv zeta in Hrun.
    destruct Hrun as [[Hnil _]|(_ & _ & -> & _)].
    + rewrite Hnil in Hbefore. destruct Hbefore as (l1 & l2 & l3 & Heq).
      by destruct l1.
    + cbn [out_file]. unfold merged_rows. rewrite max_width_sorted.
      destruct Hbefore as (l1 & l2 & l3 & ->).
      eexists _, _, _. f_equal.
      rewrite flat_map_app. cbn [flat_map]. rewrite flat_map_app. cbn [flat_map].
      reflexivity.
Qed.

(** C7: a second run over the files left by a first run, with the same
    toggles, returns the same value and leaves the same files. *)
Theorem merge_csvs_idempotent fs add drop :
  merge_csvs (fst (merge_csvs fs add drop)) add drop = merge_csvs fs add drop.
Proof.
  pose proof (merge_csvs_cases fs add drop) as Hcases. cbv zeta in Hcases.
  destruct Hcases as [[_ Heq]|[(_ & _ & Heq)|(Hne & Hr & Heq)]].
  - rewrite Heq. cbn [fst]. done.
  - rewrite Heq. cbn [fst]. done.
  - rewrite Heq at 1. cbn [fst].
    pose proof (merge_csvs_cases
                  {| csv_dir := csv_dir fs;
                     out_file := Some (merged_rows add drop
                                         (sorted (glob_csv (csv_dir fs)) natural_key)) |}
                  add drop) as Hagain.
    cbv zeta in Hagain. cbn [csv_dir] in Hagain.
    destruct Hagain as [[Hnil _]|[(_ & Hno & _)|(_ & _ & Heq')]]; [done|done|].
    by rewrite Heq', Heq.
Qed.

(** C8 (amended): when the artifact directory does not exist,
    [merge_csvs] raises nothing: it returns 0 and leaves the file at
    [out_path] as it was. *)
Theorem missing_directory_merges_nothing out add drop :
  merge_csvs {| csv_dir := None; out_file := out |} add drop
  = ({| csv_dir := None; out_file := out |}, Ok 0).
Proof. reflexivity. Qed.

(** *** Scenarios and examples *)

(** The merge scenario of the design document: rows of width 2 and a
    row of width 4, both toggles set. *)
Example merge_width_scenario :
  merge_csvs width_scenario true true = (width_scenario_merged, Ok 2).
Proof. vm_compute. reflexivity. Qed.

(** A blank row is dropped and still sets the width. *)
Example merge_wide_blank_row :
  max_width (glob_csv (csv_dir wide_blank_row)) = 3
  /\ out_file (fst (merge_csvs wide_blank_row false true))
     = Some [[lit "a"; []; []]].
Proof. split; vm_compute; reflexivity. Qed.

Lemma merged_rows_have_width_witness :
  merge_csvs width_scenario true true = (width_scenario_merged, Ok 2)
  /\ let listing := glob_csv (csv_dir width_scenario) in
     let W := max_width listing in
     (forall f row, f ∈ listing -> row ∈ rows_of f -> len row <= W)
     /\ (W = 0 \/ exists f row, f ∈ listing /\ row ∈ rows_of f /\ len row = W)
     /\ ((listing = [] /\ width_scenario_merged = width_scenario /\ 2 = 0)
         \/ exists out,
              out_file width_scenario_merged = Some out /\ 2 = len out
              /\ Forall (fun r => exists f data,
                            f ∈ listing /\ r = provenance true f ++ data
                            /\ len data = W) out).
Proof.
  split; [vm_compute; reflexivity|].
  apply (merged_rows_have_width width_scenario true true width_scenario_merged 2).
  vm_compute. reflexivity.
Defined.

Lemma blank_rows_are_dropped_witness :
  merge_csvs width_scenario true true = (width_scenario_merged, Ok 2)
  /\ glob_csv (csv_dir width_scenario) <> []
  /\ out_file width_scenario_merged
     = Some (flat_map
               (fun f =>
                  map (fun row =>
                         provenance true f
                         ++ pad_row row (max_width (glob_csv (csv_dir width_scenario))))
                    (filter (fun row => ~ blank row) (rows_of f)))
               (sorted (glob_csv (csv_dir width_scenario)) natural_key)).
Proof.
  split; [vm_compute; reflexivity|]. split; [vm_compute; discriminate|].
  apply (blank_rows_are_dropped width_scenario true width_scenario_merged 2).
  - vm_compute. reflexivity.
  - vm_compute. discriminate.
Defined.

Lemma pad_row_never_truncates_witness :
  merge_csvs width_scenario true true = (width_scenario_merged, Ok 2)
  /\ let listing := glob_csv (csv_dir width_scenario) in
     let W := max_width listing in
     (forall f row,
         f ∈ listing -> row ∈ rows_of f ->
         len row <= W
         /\ pad_row row W = row ++ repeat_list [] (W - len row)
         /\ ((len row <? W) = false <-> len row = W)
         /\ ((len row <? W) = false ->
             pad_row row W = slice_to row W /\ slice_to row W = row))
     /\ (listing <> [] ->
         out_file width_scenario_merged
         = Some (flat_map
                   (fun f => map (fun row => provenance true f ++ row
                                            ++ repeat_list [] (W - len row))
                               (filter (kept true) (rows_of f)))
                   (sorted listing natural_key))).
Proof.
  split; [vm_compute; reflexivity|].
  apply (pad_row_never_truncates width_scenario true true width_scenario_merged 2).
  vm_compute. reflexivity.
Defined.

Lemma merge_orders_by_trailing_number_witness :
  merge_csvs width_scenario true true = (width_scenario_merged, Ok 2)
  /\ (chunk_1_table_1 ∈ glob_csv (csv_dir width_scenario)
      /\ chunk_1_table_2 ∈ glob_csv (csv_dir width_scenario)
      /\ natural_key chunk_1_table_1 < natural_key chunk_1_table_2)
  /\ (forall h, h ∈ glob_csv (csv_dir width_scenario) ->
        exists stem, name h = stem ++ lit ".csv"
                     /\ natural_key h = int (trailing_digits stem))
  /\ exists pre mid post,
       out_file width_scenario_merged
       = Some (pre
               ++ written_for true true
                    (max_width (glob_csv (csv_dir width_scenario))) chunk_1_table_1
               ++ mid
               ++ written_for true true
                    (max_width (glob_csv (csv_dir width_scenario))) chunk_1_table_2
               ++ post).
Proof.
  assert (Horder : chunk_1_table_1 ∈ glob_csv (csv_dir width_scenario)
                   /\ chunk_1_table_2 ∈ glob_csv (csv_dir width_scenario)
                   /\ natural_key chunk_1_table_1 < natural_key chunk_1_table_2).
  { split; [|split].
    - apply list_elem_of_In. vm_compute. auto.
    - apply list_elem_of_In. vm_compute. auto.
    - vm_compute. reflexivity. }
  split; [vm_compute; reflexivity|]. split; [exact Horder|].
  apply (merge_orders_by_trailing_number width_scenario true true
           width_scenario_merged 2 chunk_1_table_1 chunk_1_table_2).
  - vm_compute. reflexivity.
  - left. exact Horder.
Defined.

(** C4 as stated fails: [chunk_2_table_1.csv] and [chunk_10_table_1.csv]
    have the same key 1, and when the directory lists the second one
    first its row comes first in the merged artifact. *)
Lemma ten_before_two_when_listed_first :
  natural_key chunk_2_table_1 = 1
  /\ natural_key chunk_10_table_1 = 1
  /\ exists fs',
       merge_csvs lexicographic_listing true true = (fs', Ok 2)
       /\ out_file fs'
          = Some [ [lit "chunk_10_table_1.csv"; lit "b"];
                   [lit "chunk_2_table_1.csv"; lit "a"] ]
       /\ ~ exists pre mid post,
             out_file fs'
             = Some (pre ++ written_for true true 1 chunk_2_table_1 ++ mid
                         ++ written_for true true 1 chunk_10_table_1 ++ post).
Proof.
  split; [vm_compute; reflexivity|]. split; [vm_compute; reflexivity|].
  eexists. split; [vm_compute; reflexivity|]. split; [vm_compute; reflexivity|].
  intros (pre & mid & post & Heq). cbn [out_file] in Heq.
  injection Heq as Heq.
  destruct pre as [|r1 pre]; [vm_compute in Heq; discriminate|].
  apply (f_equal (@length _)) in Heq. cbn [app length] in Heq.
  rewrite length_app in Heq. cbn [length] in Heq.
  rewrite length_app in Heq. cbn [length] in Heq. lia.
Qed.

(** C10 as stated fails: the second branch of [pad_row] is reached.  In
    the merge of the width scenario the row of [chunk_1_table_2.csv] is
    kept, has as many cells as the width, and is returned by the slice
    [row[:W]]. *)
Lemma slice_branch_is_taken_by_the_widest_row :
  let row := [lit "c"; lit "d"; lit "e"; lit "f"] in
  let W := max_width (glob_csv (csv_dir width_scenario)) in
  merge_csvs width_scenario true true = (width_scenario_merged, Ok 2)
  /\ chunk_1_table_2 ∈ glob_csv (csv_dir width_scenario)
  /\ row ∈ rows_of chunk_1_table_2
  /\ kept true row
  /\ (len row <? W) = false
  /\ pad_row row W = slice_to row W.
Proof.
  cbv zeta. split; [vm_compute; reflexivity|].
  split; [apply list_elem_of_In; vm_compute; auto|].
  split; [apply list_elem_of_here|].
  split; [|split; vm_compute; reflexivity].
  intros _ Hblank. apply Forall_inv in Hblank. vm_compute in Hblank. discriminate.
Qed.

(** The key reads the decimal digits of every script, as [\d] and [int]
    do: a stem that ends with the Arabic-Indic digit three has the key 3,
    and the artifact is merged after one whose key is 2. *)
Example natural_key_of_arabic_indic_digits :
  let three := {| name := [116; 1635]%N ++ lit ".csv";
                  content := Some [[lit "three"]] |} in
  let two := {| name := lit "t2.csv"; content := Some [[lit "two"]] |} in
  natural_key three = 3
  /\ natural_key two = 2
  /\ merge_csvs {| csv_dir := Some [three; two]; out_file := None |} false true
     = ({| csv_dir := Some [three; two];
           out_file := Some [[lit "two"]; [lit "three"]] |}, Ok 2).
Proof. cbv zeta. repeat split; vm_compute; reflexivity. Qed.

(** C8 as stated fails: on a directory that does not exist the call
    raises nothing. *)
Lemma missing_directory_is_not_fatal :
  ~ exists e fs', merge_csvs missing_directory true true = (fs', Raise e).
Proof. intros (e & fs' & Heq). vm_compute in Heq. discriminate. Qed.

End MergeCsvsFacts.

(** ** Nothing to do *)

Module PipelineFacts.
Import ChunkPdf MergeCsvs.

(** C9: when the artifact directory holds no [.csv] entry (it is empty,
    or none of its entries matches), [merge_csvs] raises nothing,
    returns 0 and writes nothing; and for a document without pages
    [generate_pdf_chunks] raises nothing and returns no chunk and no
    legacy chunk, leaving both folders as they were. *)
Theorem nothing_to_do_is_not_an_error {Page : Type} (pdf_size : list Page -> Z)
    entries out add drop cf lf P max :
  Forall (fun p => ~ lit ".csv" `suffix_of` name p) entries ->
  merge_csvs {| csv_dir := Some entries; out_file := out |} add drop
  = ({| csv_dir := Some entries; out_file := out |}, Ok 0)
  /\ exists st,
       generate_pdf_chunks pdf_size (Some []) cf lf P max = Ok st
       /\ chunks st = [] /\ legacy_chunks st = []
       /\ chunk_folder st = cf /\ legacy_folder st = lf.
Proof.
  intros Hnone. split.
  - unfold merge_csvs. cbn [csv_dir glob_csv].
    replace (filter (fun p => lit ".csv" `suffix_of` name p) entries)
      with (@nil dir_entry); [done|].
    symmetry. induction Hnone as [|p entries Hp _ IH]; [done|].
    by rewrite filter_cons_False.
  - eexists. split; [reflexivity|]. done.
Qed.

Lemma nothing_to_do_is_not_an_error_witness :
  Forall (fun p => ~ lit ".csv" `suffix_of` name p) no_artifacts
  /\ merge_csvs {| csv_dir := Some no_artifacts; out_file := None |} true true
     = ({| csv_dir := Some no_artifacts; out_file := None |}, Ok 0)
  /\ exists st,
       generate_pdf_chunks sum_size (Some []) ∅ ∅ 2 4194304 = Ok st
       /\ chunks st = [] /\ legacy_chunks st = []
       /\ chunk_folder st = ∅ /\ legacy_folder st = ∅.
Proof.
  assert (Hnone : Forall (fun p => ~ lit ".csv" `suffix_of` name p) no_artifacts).
  { apply (bool_decide_unpack _). vm_compute. exact I. }
  split; [exact Hnone|].
  apply (nothing_to_do_is_not_an_error sum_size no_artifacts None true true
           ∅ ∅ 2 4194304 Hnone).
Defined.

End PipelineFacts.

(** ** More on the chunk splitter *)

Module ChunkPdfCliFacts.
Import ChunkPdf ChunkPdfCli ChunkPdfFacts.
Section Pages.
Context {Page : Type}.
Variable pdf_size : list Page -> Z.
Implicit Types (st : state (Page := Page)) (run : list Page)
  (f : gmap Z (list Page)).

Lemma write_subchunks_above k i (pages : list Page) cs f n :
  k + i + len pages <= n -> snd (write_subchunks k i pages cs f) !! n = f !! n.
Proof.
  revert i cs f. induction pages as [|page pages IH]; intros i cs f Hn; simpl.
  - done.
  - rewrite len_cons in Hn. pose proof (len_nonneg pages).
    rewrite IH by lia. apply lookup_insert_ne. lia.
Qed.

(** One emission writes nothing at or above the next sequence number. *)
Lemma emit_run_above max run st st' n :
  run <> [] ->
  emit_run pdf_size max run st = Ok st' ->
  chunk_counter st + len (pieces pdf_size max run) <= n ->
  chunk_folder st' !! n = chunk_folder st !! n.
Proof.
  intros Hne. unfold emit_run, emit_chunk; simpl.
  assert (Hlen : 1 <= len run).
  { destruct run; [done|]. rewrite len_cons. pose proof (len_nonneg run). lia. }
  destruct (oversized pdf_size max run) eqn:Hbig.
  - rewrite (len_pieces_oversized _ _ _ Hbig).
    unfold oversized in Hbig. rewrite Hbig.
    unfold shutil_move. rewrite lookup_insert_eq. simpl.
    intros [= <-] Hn. simpl.
    rewrite write_subchunks_above by lia.
    rewrite lookup_delete_ne by lia. apply lookup_insert_ne. lia.
  - unfold pieces. rewrite Hbig. unfold oversized in Hbig. rewrite Hbig.
    intros [= <-] Hn. simpl. apply lookup_insert_ne. unfold len in Hn. simpl in Hn. lia.
Qed.

Lemma legacy_numbers_snoc max k (rs : list (list Page)) run :
  legacy_numbers pdf_size max k (rs ++ [run])
  = legacy_numbers pdf_size max k rs
    ++ (if oversized pdf_size max run
        then [k + len (flat_map (pieces pdf_size max) rs)] else []).
Proof.
  revert k. induction rs as [|r rs IH]; intros k; simpl.
  - unfold len. simpl. rewrite Z.add_0_r. by destruct (oversized _ _ _).
  - rewrite len_app. destruct (oversized pdf_size max r) eqn:Hr.
    + rewrite IH, (len_pieces_oversized _ _ _ Hr). simpl.
      do 2 f_equal. destruct (oversized _ _ run); [|done]. f_equal. lia.
    + rewrite IH. f_equal. unfold pieces. rewrite Hr.
      destruct (oversized _ _ run); [|done]. f_equal. unfold len. simpl. lia.
Qed.

(** The files that the emissions leave alone, and the legacy list. *)
Lemma emit_runs_frame max cf lf (rs : list (list Page)) st :
  Forall (fun run => run <> []) rs ->
  for_each rs (emit_run pdf_size max) (initial cf lf) = Ok st ->
  (forall n, n < 1 \/ chunk_counter st <= n -> chunk_folder st !! n = cf !! n)
  /\ legacy_chunks st = legacy_numbers pdf_size max 1 rs
  /\ (forall n, n ∉ legacy_chunks st -> legacy_folder st !! n = lf !! n).
Proof.
  revert st. induction rs as [|run rs IH] using rev_ind; intros st' Hne Hrun.
  - injection Hrun as <-. done.
  - apply Forall_app in Hne as [Hrs Hrun'].
    apply Forall_cons in Hrun' as [Hrun' _].
    rewrite for_each_snoc in Hrun.
    destruct (emit_runs_spec pdf_size max cf lf rs Hrs) as (st & Hst & Hcount & _).
    rewrite Hst in Hrun. cbn [bind] in Hrun.
    destruct (IH st Hrs Hst) as (Hframe & Hleg & Hlf).
    destruct (emit_run_spec pdf_size max run st)
      as (st'' & Hst'' & _ & Hcount' & _ & Hbelow & _ & Hleg').
    rewrite Hst'' in Hrun. injection Hrun as ->.
    pose proof (len_nonneg (pieces pdf_size max run)) as Hpos.
    assert (Hone : 1 <= chunk_counter st).
    { rewrite Hcount. unfold number_after.
      pose proof (len_nonneg (flat_map (pieces pdf_size max) rs)). lia. }
    split; [|split].
    + intros n [Hn|Hn].
      * rewrite Hbelow by lia. apply Hframe. by left.
      * rewrite (emit_run_above max run st st' n Hrun' Hst'') by lia.
        apply Hframe. right. lia.
    + rewrite legacy_numbers_snoc.
      destruct (oversized pdf_size max run); destruct Hleg' as [-> _].
      * rewrite Hleg. do 2 f_equal. rewrite Hcount. done.
      * by rewrite app_nil_r.
    + intros n Hn.
      destruct (oversized pdf_size max run); destruct Hleg' as [Hl ->].
      * rewrite Hl in Hn. apply not_elem_of_app in Hn as [Hn Hk].
        rewrite lookup_insert_ne; [by apply Hlf|].
        intros <-. apply Hk. apply list_elem_of_here.
      * rewrite Hl in Hn. by apply Hlf.
Qed.

(** The final state of a call, as the emission of its runs. *)
Lemma generate_pdf_chunks_ok (pages : list Page) cf lf P max st :
  generate_pdf_chunks pdf_size (Some pages) cf lf P max = Ok st ->
  for_each (runs P pages) (emit_run pdf_size max) (initial cf lf) = Ok st
  /\ chunk_counter st = number_after pdf_size max (runs P pages)
  /\ chunks st = seqZ 1 (len (flat_map (pieces pdf_size max) (runs P pages)))
  /\ chunk_contents st = flat_map (pieces pdf_size max) (runs P pages)
  /\ (forall (i : nat) r,
        flat_map (pieces pdf_size max) (runs P pages) !! i = Some r ->
        chunk_folder st !! (1 + Z.of_nat i) = Some r).
Proof.
  rewrite generate_pdf_chunks_emits_runs. intros Hst.
  pose proof (runs_from_not_empty P [] pages) as Hne. fold (runs P pages) in Hne.
  destruct (emit_runs_spec pdf_size max cf lf (runs P pages) Hne)
    as (st' & Hst' & Hcount & Hchunks & Hfiles & _).
  rewrite Hst in Hst'. injection Hst' as <-.
  split; [done|]. split; [done|]. split; [done|]. split; [|done].
  by apply chunk_contents_pieces.
Qed.

Lemma generate_pdf_chunks_total (pages : list Page) cf lf P max :
  exists st, generate_pdf_chunks pdf_size (Some pages) cf lf P max = Ok st.
Proof.
  rewrite generate_pdf_chunks_emits_runs.
  pose proof (runs_from_not_empty P [] pages) as Hne. fold (runs P pages) in Hne.
  destruct (emit_runs_spec pdf_size max cf lf (runs P pages) Hne) as (st & Hst & _).
  by exists st.
Qed.

(** X1: every chunk of the primary list either fits under the ceiling or
    is a single page of the document; so when every page of the document
    fits on its own, every chunk fits. *)
Theorem chunks_fit_or_are_single_pages (pages : list Page) cf lf P max :
  exists st,
    generate_pdf_chunks pdf_size (Some pages) cf lf P max = Ok st
    /\ Forall (fun r => pdf_size r <= max
                       \/ exists page, r = [page] /\ page ∈ pages)
         (chunk_contents st)
    /\ (Forall (fun page => pdf_size [page] <= max) pages ->
        Forall (fun r => pdf_size r <= max) (chunk_contents st)).
Proof.
  destruct (generate_pdf_chunks_total pages cf lf P max) as [st Hst].
  exists st. split; [done|].
  apply generate_pdf_chunks_ok in Hst as (_ & _ & _ & Hcontents & _).
  assert (Hshape : Forall (fun r => pdf_size r <= max
                                    \/ exists page, r = [page] /\ page ∈ pages)
                     (chunk_contents st)).
  { rewrite Hcontents. apply Forall_forall. intros r Hr.
    apply list_elem_of_In, in_flat_map in Hr as (run & Hrun & Hr).
    apply list_elem_of_In in Hrun, Hr.
    apply pieces_shape in Hr as [[-> Hfit]|(page & -> & Hpage)]; [by left|].
    right. exists page. split; [done|].
    rewrite <- (runs_concat P pages). apply list_elem_of_In, in_concat.
    exists run. split; by apply list_elem_of_In. }
  split; [done|]. intros Hpages.
  eapply Forall_impl; [exact Hshape|]. intros r [Hfit|(page & -> & Hpage)]; [done|].
  rewrite Forall_forall in Hpages. by apply Hpages.
Qed.

Lemma legacy_numbers_all_fit max (rs : list (list Page)) k :
  Forall (fun run => pdf_size run <= max) rs ->
  legacy_numbers pdf_size max k rs = [].
Proof.
  intros Hfit. revert k. induction Hfit as [|run rs Hrun _ IH]; intros k; [done|].
  simpl. unfold oversized. destruct (Z.ltb_spec max (pdf_size run)); [lia|]. apply IH.
Qed.

Lemma pieces_all_fit max (rs : list (list Page)) :
  Forall (fun run => pdf_size run <= max) rs ->
  flat_map (pieces pdf_size max) rs = rs.
Proof.
  induction 1 as [|run rs Hrun _ IH]; [done|]. simpl.
  unfold pieces at 1, oversized.
  destruct (Z.ltb_spec max (pdf_size run)); [lia|]. simpl. by rewrite IH.
Qed.

(** X2: when no run exceeds the ceiling, the chunks are the runs
    themselves, nothing is recorded as legacy and the legacy folder is
    left as it was. *)
Theorem chunks_are_runs_when_all_fit (pages : list Page) cf lf P max :
  Forall (fun run => pdf_size run <= max) (runs P pages) ->
  exists st,
    generate_pdf_chunks pdf_size (Some pages) cf lf P max = Ok st
    /\ chunk_contents st = runs P pages
    /\ legacy_chunks st = []
    /\ legacy_folder st = lf.
Proof.
  intros Hfit.
  destruct (generate_pdf_chunks_total pages cf lf P max) as [st Hst].
  exists st. split; [done|].
  apply generate_pdf_chunks_ok in Hst as (Hruns & _ & _ & Hcontents & _).
  pose proof (runs_from_not_empty P [] pages) as Hne. fold (runs P pages) in Hne.
  destruct (emit_runs_frame max cf lf _ st Hne Hruns) as (_ & Hleg & Hlf).
  rewrite legacy_numbers_all_fit in Hleg by done.
  split; [by rewrite Hcontents, pieces_all_fit|]. split; [done|].
  apply map_eq. intros n. apply Hlf. rewrite Hleg. apply not_elem_of_nil.
Qed.

(** *** The runs are the consecutive groups of [P] pages *)

Lemma runs_from_unfold P current (rest : list Page) :
  len current < P -> rest <> [] ->
  runs_from P current rest
  = (current ++ take (Z.to_nat (P - len current)) rest)
    :: runs P (drop (Z.to_nat (P - len current)) rest).
Proof.
  revert current. induction rest as [|page rest IH]; intros current Hlt Hne; [done|].
  cbn [runs_from].
  assert (Hlen : len (current ++ [page]) = len current + 1)
    by (rewrite len_app; unfold len; simpl; lia).
  pose proof (len_nonneg current) as Hnn.
  replace (Z.to_nat (P - len current))
    with (Datatypes.S (Z.to_nat (P - len current - 1))) by lia.
  cbn [take drop].
  destruct (Z.eqb_spec (len (current ++ [page])) P) as [Heq|Hneq]; cbn [orb].
  - replace (Z.to_nat (P - len current - 1)) with 0%nat by lia.
    rewrite take_0, drop_0. done.
  - destruct rest as [|page' rest].
    + rewrite take_nil, drop_nil. done.
    + rewrite IH by (done || lia). rewrite Hlen, <- app_assoc.
      replace (P - (len current + 1)) with (P - len current - 1) by lia. done.
Qed.

Lemma runs_unfold P (pages : list Page) :
  1 <= P -> pages <> [] ->
  runs P pages = take (Z.to_nat P) pages :: runs P (drop (Z.to_nat P) pages).
Proof.
  intros HP Hne. unfold runs at 1.
  rewrite runs_from_unfold by (done || (unfold len; simpl; lia)).
  unfold len. simpl. by rewrite Z.sub_0_r.
Qed.

Lemma runs_lookup P (pages : list Page) (i : nat) :
  1 <= P -> Z.of_nat i * P < len pages ->
  runs P pages !! i = Some (page_group P (Z.of_nat i) pages).
Proof.
  intros HP. revert pages. induction i as [|i IH]; intros pages Hi.
  - assert (pages <> []) by (intros ->; unfold len in Hi; simpl in Hi; lia).
    rewrite runs_unfold by done. unfold page_group. simpl. by rewrite drop_0.
  - assert (pages <> []) by (intros ->; unfold len in Hi; simpl in Hi; lia).
    rewrite runs_unfold by done. cbn [lookup list_lookup].
    rewrite IH.
    + unfold page_group. rewrite drop_drop. do 3 f_equal. lia.
    + unfold len in *. rewrite length_drop. lia.
Qed.

Lemma len_concat_bounds (a b : Z) (rs : list (list Page)) :
  Forall (fun r => a <= len r <= b) rs ->
  a * len rs <= len (concat rs) <= b * len rs.
Proof.
  induction 1 as [|r rs Hr _ IH]; [unfold len; simpl; lia|].
  cbn [concat]. rewrite len_app, len_cons. nia.
Qed.

Lemma runs_all_lengths P (pages : list Page) :
  1 <= P -> Forall (fun run => 1 <= len run <= P) (runs P pages).
Proof.
  intros HP. destruct (runs P pages) as [|r rs] eqn:Hruns using rev_ind;
    [constructor|].
  clear IHrs. destruct (runs_lengths P pages _ _ HP Hruns) as [Hrs Hlast].
  apply Forall_app. split; [|by constructor].
  eapply Forall_impl; [exact Hrs|]. intros run ->. lia.
Qed.

Lemma runs_count P (pages : list Page) :
  1 <= P -> len (runs P pages) = (len pages + P - 1) / P.
Proof.
  intros HP. destruct (runs P pages) as [|last rs] eqn:Hruns using rev_ind.
  - pose proof (runs_concat P pages) as Hc. rewrite Hruns in Hc. simpl in Hc.
    subst pages. unfold len. simpl. symmetry. apply Z.div_small. lia.
  - clear IHrs. destruct (runs_lengths P pages _ _ HP Hruns) as [Hrs Hlast].
    pose proof (runs_concat P pages) as Hc. rewrite Hruns in Hc.
    rewrite concat_app in Hc. simpl in Hc. rewrite app_nil_r in Hc.
    assert (Hfull : len (concat rs) = P * len rs).
    { pose proof (len_concat_bounds P P rs) as Hb.
      assert (Forall (fun r => P <= len r <= P) rs)
        by (eapply Forall_impl; [exact Hrs|]; intros run ->; lia).
      specialize (Hb H). lia. }
    rewrite <- Hc, !len_app, Hfull. unfold len at 2. cbn [length].
    change (Z.of_nat 1) with 1.
    apply (Z.div_unique _ _ _ (len last - 1)); lia.
Qed.

(** X3: with a target of at least one page, when every group of [P]
    consecutive pages fits under the ceiling, chunk [i+1] holds the
    pages [i*P .. (i+1)*P - 1] and there are [ceil(N/P)] chunks. *)
Theorem chunks_are_page_groups (pages : list Page) cf lf P max :
  1 <= P ->
  (forall i, 0 <= i -> i * P < len pages ->
     pdf_size (page_group P i pages) <= max) ->
  exists st,
    generate_pdf_chunks pdf_size (Some pages) cf lf P max = Ok st
    /\ len (chunks st) = (len pages + P - 1) / P
    /\ forall i, 0 <= i -> i * P < len pages ->
         chunk_folder st !! (1 + i) = Some (page_group P i pages).
Proof.
  intros HP Hfit.
  destruct (generate_pdf_chunks_total pages cf lf P max) as [st Hst].
  exists st. split; [done|].
  apply generate_pdf_chunks_ok in Hst as (_ & _ & Hchunks & _ & Hfiles).
  assert (Hall : Forall (fun run => pdf_size run <= max) (runs P pages)).
  { apply Forall_lookup. intros i run Hi.
    assert (Hlt : Z.of_nat i * P < len pages).
    { apply lookup_lt_Some in Hi. pose proof (runs_count P pages HP) as Hn.
      unfold len in Hn at 1.
      assert (Z.of_nat i + 1 <= (len pages + P - 1) / P) by lia.
      pose proof (Z.mul_div_le (len pages + P - 1) P ltac:(lia)). nia. }
    rewrite runs_lookup in Hi by done. injection Hi as <-. apply Hfit; lia. }
  rewrite pieces_all_fit in Hchunks, Hfiles by done.
  split.
  - rewrite Hchunks. unfold len at 1. rewrite length_seqZ.
    pose proof (len_nonneg (runs P pages)). rewrite <- runs_count by done. lia.
  - intros i Hi Hlt. replace (1 + i) with (1 + Z.of_nat (Z.to_nat i)) by lia.
    apply Hfiles. rewrite runs_lookup by (done || lia).
    by rewrite Z2Nat.id.
Qed.

(** X4: with a target of at least one page, every chunk holds between 1
    and [P] pages, and the number of chunks lies between [ceil(N/P)] and
    the number [N] of pages. *)
Theorem chunk_sizes_and_count (pages : list Page) cf lf P max :
  1 <= P ->
  exists st,
    generate_pdf_chunks pdf_size (Some pages) cf lf P max = Ok st
    /\ Forall (fun r => 1 <= len r <= P) (chunk_contents st)
    /\ (len pages + P - 1) / P <= len (chunks st) <= len pages.
Proof.
  intros HP.
  destruct (generate_pdf_chunks_total pages cf lf P max) as [st Hst].
  exists st. split; [done|].
  apply generate_pdf_chunks_ok in Hst as (_ & _ & _ & Hcontents & _).
  assert (Hsizes : Forall (fun r => 1 <= len r <= P) (chunk_contents st)).
  { rewrite Hcontents. apply Forall_forall. intros r Hr.
    apply list_elem_of_In, in_flat_map in Hr as (run & Hrun & Hr).
    apply list_elem_of_In in Hrun, Hr.
    pose proof (runs_all_lengths P pages HP) as Hlen.
    rewrite Forall_forall in Hlen. specialize (Hlen _ Hrun).
    apply pieces_shape in Hr as [[-> _]|(page & -> & _)]; [done|].
    unfold len. simpl. lia. }
  split; [done|].
  pose proof (len_concat_bounds 1 P _ Hsizes) as Hb.
  rewrite Hcontents, concat_flat_map_pieces, runs_concat in Hb.
  assert (Hcount : len (flat_map (pieces pdf_size max) (runs P pages)) = len (chunks st)).
  { rewrite <- Hcontents. unfold chunk_contents, len. by rewrite length_map. }
  rewrite Hcount in Hb. split; [|lia].
  pose proof (len_nonneg (chunks st)).
  assert ((len pages + P - 1) / P < len (chunks st) + 1); [|lia].
  apply Z.div_lt_upper_bound; lia.
Qed.

(** X5: the call touches only the files it emits: a file of the primary
    folder whose number is not one of the chunk numbers [1 .. m], and a
    file of the legacy folder whose number is not in the legacy list, are
    left as they were. *)
Theorem other_files_are_left_alone (pages : list Page) cf lf P max :
  exists st,
    generate_pdf_chunks pdf_size (Some pages) cf lf P max = Ok st
    /\ (forall n, n < 1 \/ len (chunks st) < n -> chunk_folder st !! n = cf !! n)
    /\ (forall n, n ∉ legacy_chunks st -> legacy_folder st !! n = lf !! n).
Proof.
  destruct (generate_pdf_chunks_total pages cf lf P max) as [st Hst].
  exists st. split; [done|].
  apply generate_pdf_chunks_ok in Hst as (Hruns & Hcount & Hchunks & _).
  pose proof (runs_from_not_empty P [] pages) as Hne. fold (runs P pages) in Hne.
  destruct (emit_runs_frame max cf lf _ st Hne Hruns) as (Hframe & _ & Hlf).
  split; [|done]. intros n Hn. apply Hframe.
  rewrite Hcount. unfold number_after.
  rewrite Hchunks in Hn. unfold len in Hn at 1. rewrite length_seqZ in Hn.
  pose proof (len_nonneg (flat_map (pieces pdf_size max) (runs P pages))). lia.
Qed.

Lemma legacy_numbers_elem max (rs : list (list Page)) k0 k :
  k ∈ legacy_numbers pdf_size max k0 rs ->
  exists rs1 run rs2,
    rs = rs1 ++ run :: rs2 /\ oversized pdf_size max run = true
    /\ k = k0 + len (flat_map (pieces pdf_size max) rs1).
Proof.
  revert k0. induction rs as [|r rs IH]; intros k0 Hk; simpl in Hk.
  - by apply elem_of_nil in Hk.
  - destruct (oversized pdf_size max r) eqn:Hr.
    + apply elem_of_cons in Hk as [->|Hk].
      * exists [], r, rs. split; [done|]. split; [done|]. unfold len. simpl. lia.
      * destruct (IH _ Hk) as (rs1 & run & rs2 & -> & Hbig & ->).
        exists (r :: rs1), run, rs2. split; [done|]. split; [done|].
        simpl. rewrite len_app, (len_pieces_oversized _ _ _ Hr). lia.
    + destruct (IH _ Hk) as (rs1 & run & rs2 & -> & Hbig & ->).
      exists (r :: rs1), run, rs2. split; [done|]. split; [done|].
      simpl. rewrite len_app.
      assert (len (pieces pdf_size max r) = 1) as -> by (unfold pieces; by rewrite Hr).
      lia.
Qed.

(** X6: every entry of the legacy list is an oversized run: its file in
    the legacy folder exceeds the ceiling, and its number is also a chunk
    number, under which the primary folder holds the first page of the
    run alone. *)
Theorem legacy_entries_are_oversized_runs (pages : list Page) cf lf P max :
  exists st,
    generate_pdf_chunks pdf_size (Some pages) cf lf P max = Ok st
    /\ forall k,
         k ∈ legacy_chunks st ->
         exists page rest,
           legacy_folder st !! k = Some (page :: rest)
           /\ max < pdf_size (page :: rest)
           /\ k ∈ chunks st
           /\ chunk_folder st !! k = Some [page].
Proof.
  destruct (generate_pdf_chunks_total pages cf lf P max) as [st Hst].
  exists st. split; [done|].
  intros k Hk. rewrite generate_pdf_chunks_emits_runs in Hst.
  pose proof (runs_from_not_empty P [] pages) as Hne. fold (runs P pages) in Hne.
  destruct (emit_runs_spec pdf_size max cf lf (runs P pages) Hne)
    as (st' & Hst' & _ & Hchunks & Hfiles & Hlegacy).
  rewrite Hst in Hst'. injection Hst' as <-.
  destruct (emit_runs_frame max cf lf _ st Hne Hst) as (_ & Hleg & _).
  rewrite Hleg in Hk.
  apply legacy_numbers_elem in Hk as (rs1 & run & rs2 & Hsplit & Hbig & ->).
  destruct (Hlegacy _ _ _ Hsplit Hbig) as [_ Hfile].
  rewrite Hsplit in Hne. apply Forall_app in Hne as [_ Hne].
  apply Forall_cons in Hne as [Hrun _].
  destruct run as [|page rest]; [done|]. exists page, rest.
  split; [exact Hfile|].
  split; [by apply Z.ltb_lt|].
  rewrite Hsplit, flat_map_app in Hchunks, Hfiles. cbn [flat_map] in Hchunks, Hfiles.
  unfold pieces at 2 in Hchunks. unfold pieces at 2 in Hfiles.
  rewrite Hbig in Hchunks, Hfiles. cbn [map app] in Hchunks, Hfiles.
  split.
  - rewrite Hchunks. apply elem_of_seqZ. rewrite len_app, len_cons.
    pose proof (len_nonneg (flat_map (pieces pdf_size max) rs1)).
    pose proof (len_nonneg (map (fun page => [page]) rest
                            ++ flat_map (pieces pdf_size max) rs2)). lia.
  - unfold len. apply Hfiles. by rewrite list_lookup_middle.
Qed.

Lemma runs_of_one (pages : list Page) :
  runs 1 pages = map (fun page => [page]) pages.
Proof.
  unfold runs. induction pages as [|page pages IH]; [done|].
  cbn [runs_from app map]. change (len [page] =? 1) with true. cbn [orb].
  by rewrite IH.
Qed.

Lemma pieces_of_single_pages max (pages : list Page) :
  flat_map (pieces pdf_size max) (map (fun page => [page]) pages)
  = map (fun page => [page]) pages.
Proof.
  induction pages as [|page pages IH]; [done|]. cbn [map flat_map].
  rewrite IH. unfold pieces. by destruct (oversized _ _ _).
Qed.

(** X7: [main] raises at once when the input file is missing, and it
    never asks for less than one page per chunk: with
    [--pages-per-chunk] at 1 or below, every page of the document becomes
    a chunk of its own, whatever the sizes. *)
Theorem main_clamps_pages_per_chunk (pages : list Page) cf lf pages_per_chunk mb :
  pages_per_chunk <= 1 ->
  main pdf_size Missing cf lf pages_per_chunk mb = Raise OSError
  /\ exists st,
       main pdf_size (Present (Some pages)) cf lf pages_per_chunk mb = Ok st
       /\ chunks st = seqZ 1 (len pages)
       /\ chunk_contents st = map (fun page => [page]) pages.
Proof.
  intros Hle. split; [done|]. unfold main.
  replace (Z.max 1 pages_per_chunk) with 1 by lia.
  rewrite generate_pdf_chunks_emits_runs.
  pose proof (runs_from_not_empty 1 [] pages) as Hne. fold (runs 1 pages) in Hne.
  destruct (emit_runs_spec pdf_size (mb * 1024 * 1024) cf lf (runs 1 pages) Hne)
    as (st & Hst & _ & Hchunks & Hfiles & _).
  exists st. split; [done|].
  pose proof (chunk_contents_pieces pdf_size _ st _ Hchunks Hfiles) as Hcontents.
  rewrite runs_of_one, pieces_of_single_pages in Hchunks, Hcontents.
  split; [|done]. rewrite Hchunks. unfold len. by rewrite length_map.
Qed.

End Pages.

Lemma chunks_are_runs_when_all_fit_witness :
  Forall (fun run => sum_size run <= 4194304) (runs 2 [1; 1; 1; 1; 1])
  /\ exists st,
       generate_pdf_chunks sum_size (Some [1; 1; 1; 1; 1]) ∅ ∅ 2 4194304 = Ok st
       /\ chunk_contents st = runs 2 [1; 1; 1; 1; 1]
       /\ legacy_chunks st = []
       /\ legacy_folder st = ∅.
Proof.
  assert (Hfit : Forall (fun run => sum_size run <= 4194304) (runs 2 [1; 1; 1; 1; 1])).
  { apply (bool_decide_unpack _). vm_compute. exact I. }
  split; [exact Hfit|].
  apply (chunks_are_runs_when_all_fit sum_size [1; 1; 1; 1; 1] ∅ ∅ 2 4194304 Hfit).
Defined.

Lemma chunks_are_page_groups_witness :
  1 <= 2
  /\ (forall i, 0 <= i -> i * 2 < len [1; 1; 1; 1; 1] ->
        sum_size (page_group 2 i [1; 1; 1; 1; 1]) <= 4194304)
  /\ exists st,
       generate_pdf_chunks sum_size (Some [1; 1; 1; 1; 1]) ∅ ∅ 2 4194304 = Ok st
       /\ len (chunks st) = (len [1; 1; 1; 1; 1] + 2 - 1) / 2
       /\ forall i, 0 <= i -> i * 2 < len [1; 1; 1; 1; 1] ->
            chunk_folder st !! (1 + i) = Some (page_group 2 i [1; 1; 1; 1; 1]).
Proof.
  assert (Hfit : forall i, 0 <= i -> i * 2 < len [1; 1; 1; 1; 1] ->
                   sum_size (page_group 2 i [1; 1; 1; 1; 1]) <= 4194304).
  { intros i H0 Hi. unfold len in Hi. simpl in Hi.
    assert (i = 0 \/ i = 1 \/ i = 2) as [->|[->| ->]] by lia;
      vm_compute; discriminate. }
  split; [lia|]. split; [exact Hfit|].
  apply (chunks_are_page_groups sum_size [1; 1; 1; 1; 1] ∅ ∅ 2 4194304); [lia|exact Hfit].
Defined.

Lemma chunk_sizes_and_count_witness :
  1 <= 2
  /\ exists st,
       generate_pdf_chunks sum_size (Some [1; 2; 9; 9; 3]) ∅ ∅ 2 10 = Ok st
       /\ Forall (fun r => 1 <= len r <= 2) (chunk_contents st)
       /\ (len [1; 2; 9; 9; 3] + 2 - 1) / 2 <= len (chunks st) <= len [1; 2; 9; 9; 3].
Proof.
  split; [lia|].
  apply (chunk_sizes_and_count sum_size [1; 2; 9; 9; 3] ∅ ∅ 2 10). lia.
Defined.

Lemma main_clamps_pages_per_chunk_witness :
  0 <= 1
  /\ main sum_size Missing ∅ ∅ 0 4 = Raise OSError
  /\ exists st,
       main sum_size (Present (Some [1; 2; 9])) ∅ ∅ 0 4 = Ok st
       /\ chunks st = seqZ 1 (len [1; 2; 9])
       /\ chunk_contents st = map (fun page => [page]) [1; 2; 9].
Proof.
  split; [lia|].
  apply (main_clamps_pages_per_chunk sum_size [1; 2; 9] ∅ ∅ 0 4). lia.
Defined.

End ChunkPdfCliFacts.

(** ** Trimming *)

Module StripFacts.

Lemma lstrip_split s :
  exists pre, s = pre ++ lstrip s /\ spaces pre.
Proof.
  induction s as [|c s (pre & Heq & Hpre)]; simpl.
  - exists []. split; [done|constructor].
  - destruct (is_space c) eqn:Hc.
    + exists (c :: pre). split; [simpl; congruence|by constructor].
    + exists []. split; [done|constructor].
Qed.

Lemma lstrip_head s c : head (lstrip s) = Some c -> is_space c = false.
Proof.
  induction s as [|x s IH]; simpl; [done|].
  destruct (is_space x) eqn:Hx; [done|]. simpl. congruence.
Qed.

Lemma lstrip_fixed s :
  (forall c, head s = Some c -> is_space c = false) -> lstrip s = s.
Proof. destruct s as [|c s]; simpl; [done|]. intros H. by rewrite H. Qed.

Lemma lstrip_spaces s : spaces s -> lstrip s = [].
Proof. induction 1 as [|c s Hc _ IH]; simpl; [done|]. by rewrite Hc. Qed.

Lemma rstrip_split s :
  exists post, s = rstrip s ++ post /\ spaces post.
Proof.
  destruct (lstrip_split (reverse s)) as (pre & Heq & Hpre).
  exists (reverse pre). split.
  - apply (f_equal reverse) in Heq.
    by rewrite reverse_involutive, reverse_app in Heq.
  - by apply Forall_reverse.
Qed.

Lemma rstrip_last s c : last (rstrip s) = Some c -> is_space c = false.
Proof. unfold rstrip. rewrite last_reverse. apply lstrip_head. Qed.

Lemma rstrip_fixed s :
  (forall c, last s = Some c -> is_space c = false) -> rstrip s = s.
Proof.
  intros H. unfold rstrip. rewrite lstrip_fixed; [apply reverse_involutive|].
  intros c. rewrite head_reverse. apply H.
Qed.

Lemma strip_trimmed s : trimmed (strip s).
Proof.
  unfold strip. split; [|apply rstrip_last].
  intros c Hc. destruct (rstrip_split (lstrip s)) as (post & Heq & _).
  apply (lstrip_head s). rewrite Heq.
  destruct (rstrip (lstrip s)); [done|]. exact Hc.
Qed.

Lemma strip_fixed s : trimmed s -> strip s = s.
Proof.
  intros [Hhead Hlast]. unfold strip. rewrite (lstrip_fixed s) by done.
  by apply rstrip_fixed.
Qed.

Lemma strip_idempotent s : strip (strip s) = strip s.
Proof. apply strip_fixed, strip_trimmed. Qed.

Lemma strip_nil_iff s : strip s = [] <-> spaces s.
Proof.
  split.
  - intros Hnil. destruct (lstrip_split s) as (pre & Heq & Hpre).
    destruct (rstrip_split (lstrip s)) as (post & Heq' & Hpost).
    unfold strip in Hnil. rewrite Hnil in Heq'. simpl in Heq'.
    rewrite Heq, Heq'. by apply Forall_app.
  - intros Hs. unfold strip. by rewrite lstrip_spaces.
Qed.

End StripFacts.

(** ** More on the grid builder *)

Module GridFacts.
Import AnalyzeChunks GridShape StripFacts.

Lemma place_cell_shape (P : str -> Prop) R C cell g :
  P (strip (or_empty (content cell))) ->
  grid_shape P R C g ->
  exists g', place_cell R C cell g = Ok g' /\ grid_shape P R C g'.
Proof.
  intros Hcell [Hrows Hcols]. unfold place_cell.
  destruct (row_index cell) as [r0|]; [|by exists g].
  destruct (column_index cell) as [c0|]; [|by exists g].
  destruct ((0 <=? r0) && (r0 <? R) && (0 <=? c0) && (c0 <? C)) eqn:Hin;
    [|by exists g].
  apply andb_prop in Hin as [Hin Hc0hi]. apply andb_prop in Hin as [Hin Hc0lo].
  apply andb_prop in Hin as [Hr0lo Hr0hi].
  apply Z.leb_le in Hr0lo, Hc0lo. apply Z.ltb_lt in Hr0hi, Hc0hi.
  destruct (lookup_lt_is_Some_2 g (Z.to_nat r0)) as [row0 Hrow0]; [lia|].
  pose proof (Forall_lookup_1 _ _ _ _ Hcols Hrow0) as [Hlen0 HP0].
  unfold store. rewrite (getitem_in_range g r0 row0) by done. cbn [bind].
  rewrite setitem_in_range by (unfold len; lia). cbn [bind].
  rewrite setitem_in_range by (unfold len; lia).
  eexists. split; [reflexivity|]. split.
  - by rewrite length_insert.
  - apply Forall_insert; [done|]. split; [by rewrite length_insert|].
    by apply Forall_insert.
Qed.

Lemma place_cells_shape (P : str -> Prop) R C cells g :
  Forall (fun cell => P (strip (or_empty (content cell)))) cells ->
  grid_shape P R C g ->
  exists g', for_each cells (place_cell R C) g = Ok g' /\ grid_shape P R C g'.
Proof.
  intros Hcells. revert g. induction Hcells as [|cell cells Hcell _ IH]; intros g Hg.
  - by exists g.
  - destruct (place_cell_shape P R C cell g Hcell Hg) as (g1 & Hg1 & Hshape).
    destruct (IH _ Hshape) as (g' & Hg' & Hshape').
    exists g'. cbn [for_each]. rewrite Hg1. done.
Qed.

Lemma initial_grid_shape (P : str -> Prop) R C :
  P [] -> grid_shape P R C (map (fun _ => repeat_list ([] : str) C) (range R)).
Proof.
  intros HP. unfold grid_shape, range, repeat_list. split.
  - rewrite length_map, length_seqZ. done.
  - apply Forall_forall. intros row Hrow.
    apply list_elem_of_fmap in Hrow as (i & -> & _).
    split; [apply length_replicate|]. by apply Forall_replicate.
Qed.

(** X8: [build_grid_from_table] never raises, whatever the counts and the
    indices of the table: a missing, zero or negative row count gives a
    grid without rows, and a missing, zero or negative column count gives
    rows without cells. *)
Theorem build_grid_from_table_total (t : table) :
  exists g,
    build_grid_from_table t = Ok g
    /\ length g = Z.to_nat (or_zero (row_count t))
    /\ Forall (fun row => length row = Z.to_nat (or_zero (column_count t))) g.
Proof.
  unfold build_grid_from_table.
  destruct (place_cells_shape (fun _ => True)
              (or_zero (row_count t)) (or_zero (column_count t)) (cells t) _
              ltac:(by apply Forall_forall)
              (initial_grid_shape _ _ _ I)) as (g & Hg & Hrows & Hcols).
  exists g. split; [done|]. split; [done|].
  eapply Forall_impl; [exact Hcols|]. by intros row [? _].
Qed.

(** X9: no text of the grid begins or ends with whitespace, and a text
    of the grid that is not empty is the trimmed content of a cell of
    the table. *)
Theorem grid_texts_are_trimmed (t : table) :
  exists g,
    build_grid_from_table t = Ok g
    /\ forall row text,
         row ∈ g -> text ∈ row ->
         trimmed text
         /\ (text = []
             \/ exists cell, cell ∈ cells t
                             /\ text = strip (or_empty (content cell))).
Proof.
  unfold build_grid_from_table.
  set (P := fun text : str =>
              text = [] \/ exists cell, cell ∈ cells t
                                       /\ text = strip (or_empty (content cell))).
  destruct (place_cells_shape P
              (or_zero (row_count t)) (or_zero (column_count t)) (cells t) _
              ltac:(apply Forall_forall; intros cell Hcell; right; eauto)
              (initial_grid_shape P _ _ ltac:(by left))) as (g & Hg & _ & Hcols).
  exists g. split; [done|]. intros row text Hrow Htext.
  rewrite Forall_forall in Hcols. destruct (Hcols _ Hrow) as [_ Hall].
  rewrite Forall_forall in Hall. specialize (Hall _ Htext).
  split; [|exact Hall].
  destruct Hall as [->|(cell & _ & ->)]; [done|]. apply strip_trimmed.
Qed.

End GridFacts.

(** ** More on the merge normalizer *)

Module MergeRowFacts.
Import MergeCsvs MergeScenarios MergeCsvsFacts StripFacts.

Lemma pad_row_keeps_cells_eq (row : csv_row) W :
  len row = W -> pad_row row W = row.
Proof.
  intros Hlen. rewrite pad_row_keeps_cells by lia.
  replace (W - len row) with 0 by lia. apply app_nil_r.
Qed.

(** X10: for a width that is not negative, [pad_row] returns exactly
    [width] cells: the cells of the row at the positions it has below
    [width], the empty string at the others; and padding a padded row
    changes nothing. *)
Theorem pad_row_spec (row : csv_row) width :
  0 <= width ->
  len (pad_row row width) = width
  /\ (forall (i : nat) cell,
        row !! i = Some cell -> Z.of_nat i < width ->
        pad_row row width !! i = Some cell)
  /\ (forall (i : nat),
        len row <= Z.of_nat i < width -> pad_row row width !! i = Some [])
  /\ pad_row (pad_row row width) width = pad_row row width.
Proof.
  intros Hw.
  assert (Hform : pad_row row width
                  = take (Z.to_nat width) row
                    ++ replicate (Z.to_nat (width - len row)) []).
  { unfold pad_row, repeat_list, slice_to.
    destruct (Z.ltb_spec (len row) width) as [Hlt|Hge].
    - rewrite take_ge by (unfold len in Hlt; lia). done.
    - destruct (Z.ltb_spec width 0); [lia|].
      replace (Z.to_nat (width - len row)) with 0%nat by lia.
      by rewrite app_nil_r. }
  split; [by apply pad_row_len|]. split; [|split].
  - intros i cell Hi Hlt. rewrite Hform. apply lookup_app_l_Some.
    rewrite lookup_take_lt by lia. done.
  - intros i Hi. rewrite Hform. unfold len in *.
    rewrite take_ge by lia. assert (Hle : (length row <= i)%nat) by lia. rewrite (lookup_app_r row _ i Hle).
    apply lookup_replicate_2. lia.
  - apply pad_row_keeps_cells_eq. by apply pad_row_len.
Qed.

Lemma pad_row_spec_witness :
  0 <= 3
  /\ len (pad_row [lit "a"] 3) = 3
  /\ (forall (i : nat) cell,
        [lit "a"] !! i = Some cell -> Z.of_nat i < 3 ->
        pad_row [lit "a"] 3 !! i = Some cell)
  /\ (forall (i : nat),
        len [lit "a"] <= Z.of_nat i < 3 -> pad_row [lit "a"] 3 !! i = Some [])
  /\ pad_row (pad_row [lit "a"] 3) 3 = pad_row [lit "a"] 3.
Proof. split; [lia|]. apply (pad_row_spec [lit "a"] 3). lia. Defined.

(** X11: [is_empty_row] holds exactly of the rows whose cells are all
    made of whitespace only; a row without cells is such a row. *)
Theorem is_empty_row_iff_whitespace (row : csv_row) :
  is_empty_row row = true <-> Forall spaces row.
Proof.
  rewrite is_empty_row_blank. unfold blank. split; intros H.
  - eapply Forall_impl; [exact H|]. intros c. apply strip_nil_iff.
  - eapply Forall_impl; [exact H|]. intros c. apply strip_nil_iff.
Qed.

(** X12: an artifact that cannot be read aborts the merge, wherever it
    stands in the order, before the output file is opened: the call
    raises and the file system is as it was, the earlier merged file
    included. *)
Theorem unreadable_artifact_aborts fs add drop f :
  f ∈ glob_csv (csv_dir fs) ->
  content f = None ->
  merge_csvs fs add drop = (fs, Raise CsvError).
Proof.
  intros Hf Hnone.
  pose proof (merge_csvs_cases fs add drop) as Hcases. cbv zeta in Hcases.
  assert (Hin : f ∈ sorted (glob_csv (csv_dir fs)) natural_key)
    by (by rewrite sorted_perm).
  destruct Hcases as [[Hnil _]|[(_ & _ & Heq)|(_ & Hr & _)]].
  - rewrite Hnil in Hin. by apply elem_of_nil in Hin.
  - done.
  - rewrite Forall_forall in Hr. destruct (Hr _ Hin) as [rows Hrows]. congruence.
Qed.

Lemma unreadable_artifact_aborts_witness :
  unreadable_table ∈ glob_csv (csv_dir broken_artifact)
  /\ content unreadable_table = None
  /\ merge_csvs broken_artifact true true = (broken_artifact, Raise CsvError).
Proof.
  assert (Hin : unreadable_table ∈ glob_csv (csv_dir broken_artifact)).
  { apply list_elem_of_In. vm_compute. auto. }
  split; [exact Hin|]. split; [reflexivity|].
  apply (unreadable_artifact_aborts broken_artifact true true unreadable_table Hin).
  reflexivity.
Defined.

Lemma length_flat_map_written add drop W files :
  length (flat_map (written_for add drop W) files)
  = length (filter (kept drop) (flat_map rows_of files)).
Proof.
  induction files as [|f files IH]; [done|]. cbn [flat_map].
  rewrite filter_app, !length_app, IH. unfold written_for.
  by rewrite length_map.
Qed.

Lemma filter_kept_all (rows : list csv_row) : filter (kept false) rows = rows.
Proof.
  induction rows as [|row rows IH]; [done|].
  rewrite filter_cons_True by (unfold kept; done). by rewrite IH.
Qed.

(** X13: the value returned by a successful call is the number of rows
    of the artifacts that are not dropped; it is the number of rows of
    the merged file, and the number of all rows when
    [drop_empty_rows] is off. *)
Theorem wrote_counts_kept_rows fs add drop fs' wrote :
  merge_csvs fs add drop = (fs', Ok wrote) ->
  let rows := flat_map rows_of (glob_csv (csv_dir fs)) in
  wrote = len (filter (kept drop) rows)
  /\ (glob_csv (csv_dir fs) <> [] ->
      exists out, out_file fs' = Some out /\ len out = wrote)
  /\ (drop = false -> wrote = len rows).
Proof.
  intros Hrun. cbv zeta.
  assert (Hcount : wrote
                   = len (filter (kept drop)
                            (flat_map rows_of (glob_csv (csv_dir fs))))
                   /\ (glob_csv (csv_dir fs) <> [] ->
                       exists out, out_file fs' = Some out /\ len out = wrote)).
  { apply merge_csvs_ok in Hrun. cbv zeta in Hrun.
    destruct Hrun as [(Hnil & -> & ->)|(Hne & _ & -> & ->)].
    - rewrite Hnil. done.
    - split; [|intros _; by eexists].
      unfold merged_rows, len. rewrite length_flat_map_written. f_equal.
      apply Permutation_length. apply filter_Permutation.
      apply Permutation_flat_map, sorted_perm. }
  destruct Hcount as [Hwrote Hout]. split; [done|]. split; [done|].
  intros ->. rewrite Hwrote. by rewrite filter_kept_all.
Qed.

Lemma wrote_counts_kept_rows_witness :
  merge_csvs width_scenario true true = (width_scenario_merged, Ok 2)
  /\ let rows := flat_map rows_of (glob_csv (csv_dir width_scenario)) in
     2 = len (filter (kept true) rows)
     /\ (glob_csv (csv_dir width_scenario) <> [] ->
         exists out, out_file width_scenario_merged = Some out /\ len out = 2)
     /\ (true = false -> 2 = len rows).
Proof.
  split; [vm_compute; reflexivity|].
  apply (wrote_counts_kept_rows width_scenario true true width_scenario_merged 2).
  vm_compute. reflexivity.
Defined.

(** *** A stable sort with distinct keys has one result *)

Lemma ascending_unique {A} (key : A -> Z) (a b : list A) :
  ascending key a -> ascending key b -> a ≡ₚ b ->
  NoDup (map key a) -> a = b.
Proof.
  unfold ascending. revert b.
  induction a as [|x a IH]; intros b Ha Hb Hperm Hnodup.
  - by apply Permutation_nil_l in Hperm.
  - destruct b as [|y b]; [by apply Permutation_nil_r in Hperm|].
    apply StronglySorted_inv in Ha as [Ha Hx].
    apply StronglySorted_inv in Hb as [Hb Hy].
    rewrite Forall_forall in Hx, Hy.
    cbn [map] in Hnodup. apply NoDup_cons in Hnodup as [Hfresh Hnodup].
    assert (Hxy : x = y).
    { assert (Hyin : y ∈ x :: a) by (rewrite Hperm; apply list_elem_of_here).
      apply elem_of_cons in Hyin as [->|Hyin]; [done|].
      assert (Hxin : x ∈ y :: b) by (rewrite <- Hperm; apply list_elem_of_here).
      apply elem_of_cons in Hxin as [->|Hxin]; [done|].
      pose proof (Hx _ Hyin) as H1. pose proof (Hy _ Hxin) as H2.
      simpl in H1, H2. exfalso. apply Hfresh.
      replace (key x) with (key y) by lia.
      apply list_elem_of_In, in_map. by apply list_elem_of_In. }
    subst y. f_equal. apply IH; [done|done| |done].
    by apply Permutation_cons_inv in Hperm.
Qed.

Lemma sorted_of_permutation {A} (key : A -> Z) (l1 l2 : list A) :
  l1 ≡ₚ l2 -> NoDup (map key l1) -> sorted l1 key = sorted l2 key.
Proof.
  intros Hperm Hnodup. apply (ascending_unique key).
  - apply sorted_ascending.
  - apply sorted_ascending.
  - by rewrite !sorted_perm.
  - eapply NoDup_Permutation_proper; [|exact Hnodup].
    apply Permutation_map, sorted_perm.
Qed.

(** X14: when the artifacts have pairwise different keys, the order in
    which the directory is enumerated does not matter: two listings of
    the same entries give the same returned value and the same merged
    file. *)
Theorem enumeration_order_is_irrelevant_for_distinct_keys
    entries1 entries2 out add drop :
  entries1 ≡ₚ entries2 ->
  NoDup (map natural_key (glob_csv (Some entries1))) ->
  snd (merge_csvs {| csv_dir := Some entries2; out_file := out |} add drop)
  = snd (merge_csvs {| csv_dir := Some entries1; out_file := out |} add drop)
  /\ out_file (fst (merge_csvs {| csv_dir := Some entries2; out_file := out |}
                      add drop))
     = out_file (fst (merge_csvs {| csv_dir := Some entries1; out_file := out |}
                        add drop)).
Proof.
  intros Hperm Hnodup.
  assert (Hsorted : sorted (glob_csv (Some entries2)) natural_key
                    = sorted (glob_csv (Some entries1)) natural_key).
  { symmetry. apply sorted_of_permutation; [|done].
    cbn [glob_csv]. by apply filter_Permutation. }
  unfold merge_csvs. cbn [csv_dir]. rewrite Hsorted.
  destruct (sorted (glob_csv (Some entries1)) natural_key) as [|f files]; [done|].
  destruct (for_each (f :: files) scan_file 0) as [W|e]; [|done].
  destruct (write_files add drop W (f :: files) [] 0) as [rows wrote]. done.
Qed.

Lemma enumeration_order_is_irrelevant_for_distinct_keys_witness :
  listing_one ≡ₚ listing_two
  /\ NoDup (map natural_key (glob_csv (Some listing_one)))
  /\ snd (merge_csvs {| csv_dir := Some listing_two; out_file := None |} true true)
     = snd (merge_csvs {| csv_dir := Some listing_one; out_file := None |} true true)
  /\ out_file (fst (merge_csvs {| csv_dir := Some listing_two; out_file := None |}
                      true true))
     = out_file (fst (merge_csvs {| csv_dir := Some listing_one; out_file := None |}
                        true true)).
Proof.
  assert (Hperm : listing_one ≡ₚ listing_two).
  { symmetry. unfold listing_one, listing_two.
    apply (Permutation_cons_append [chunk_1_table_2; _] chunk_1_table_1). }
  assert (Hnodup : NoDup (map natural_key (glob_csv (Some listing_one)))).
  { apply (bool_decide_unpack _). vm_compute. exact I. }
  split; [exact Hperm|]. split; [exact Hnodup|].
  apply (enumeration_order_is_irrelevant_for_distinct_keys
           listing_one listing_two None true true Hperm Hnodup).
Defined.

End MergeRowFacts.

(** ** Numbers in file names *)

Module FormatFacts.
Import MergeCsvs MergeCsvsFacts.

Lemma int_snoc digits d :
  int (digits ++ [d]) = 10 * int digits + default 0 (digit_value d).
Proof. unfold int. by rewrite fold_left_app. Qed.

Lemma digit_value_of_Z d :
  0 <= d <= 9 -> digit_value (Z.to_N (48 + d)) = Some d.
Proof.
  intros Hd.
  assert (Hcases : d = 0 \/ d = 1 \/ d = 2 \/ d = 3 \/ d = 4 \/ d = 5
                   \/ d = 6 \/ d = 7 \/ d = 8 \/ d = 9) by lia.
  repeat (destruct Hcases as [->|Hcases]; [reflexivity|]). by subst d.
Qed.

Lemma is_digit_of_Z d : 0 <= d <= 9 -> is_digit (Z.to_N (48 + d)) = true.
Proof. intros Hd. unfold is_digit. by rewrite digit_value_of_Z. Qed.

(** The digits written for a number read back as that number. *)
Lemma decimal_spec fuel n :
  (1 <= fuel)%nat -> 0 <= n < 2 ^ Z.of_nat fuel ->
  decimal fuel n <> []
  /\ Forall (fun c => is_digit c = true) (decimal fuel n)
  /\ int (decimal fuel n) = n.
Proof.
  revert n. induction fuel as [|fuel IH]; intros n Hfuel Hn; [lia|].
  cbn [decimal]. destruct (Z.ltb_spec n 10) as [Hsmall|Hbig].
  - split; [done|]. split.
    + constructor; [|constructor]. apply is_digit_of_Z. lia.
    + unfold int. cbn [fold_left]. rewrite digit_value_of_Z by lia. cbv [default from_option id]. lia.
  - assert (Hpow : 2 ^ Z.of_nat (Datatypes.S fuel) = 2 * 2 ^ Z.of_nat fuel).
    { rewrite Nat2Z.inj_succ, Z.pow_succ_r by lia. done. }
    assert (Hf : (1 <= fuel)%nat).
    { destruct fuel; [|lia]. simpl in Hn. lia. }
    assert (Hdiv : 0 <= n / 10 < 2 ^ Z.of_nat fuel).
    { split; [apply Z.div_pos; lia|]. apply Z.div_lt_upper_bound; lia. }
    destruct (IH (n / 10) Hf Hdiv) as (Hne & Hdigits & Hint).
    pose proof (Z.mod_pos_bound n 10 ltac:(lia)) as Hmod.
    split; [by destruct (decimal fuel (n / 10))|]. split.
    + apply Forall_app. split; [done|].
      constructor; [|constructor]. apply is_digit_of_Z. lia.
    + rewrite int_snoc, Hint, digit_value_of_Z by lia. cbv [default from_option id].
      pose proof (Z.div_mod n 10 ltac:(lia)). lia.
Qed.

Lemma format_int_spec n :
  0 <= n ->
  format_int n <> []
  /\ Forall (fun c => is_digit c = true) (format_int n)
  /\ int (format_int n) = n.
Proof.
  intros Hn. unfold format_int. destruct (Z.ltb_spec n 0); [lia|].
  apply decimal_spec; [lia|]. split; [done|].
  pose proof (Z.log2_nonneg n).
  rewrite Nat2Z.inj_succ, Z2Nat.id by done.
  destruct (Z.eq_dec n 0) as [->|]; [done|].
  apply Z.log2_spec. lia.
Qed.

End FormatFacts.

(** ** The analysis driver *)

Module AnalyzeDriverFacts.
Import AnalyzeChunks AnalyzeDriver DriverVocabulary ChunkPdfCli MergeCsvs
  MergeCsvsFacts MergeRowFacts FormatFacts GridShape GridFacts.

Lemma natural_key_of_csv_name_aux pdf_name i :
  0 <= i -> re_search (csv_name pdf_name i) = Some (format_int i).
Proof.
  intros Hi. destruct (format_int_spec i Hi) as (Hne & Hdigits & Hint).
  unfold csv_name. rewrite (app_assoc (stem pdf_name)).
  rewrite re_search_skip, re_search_digits by
    (done || (intros c; rewrite last_app; simpl; intros [= <-]; reflexivity)).
  by destruct (format_int i).
Qed.

(** X15: the key under which [merge_csvs] orders the artifact written
    for the [i]-th table of a chunk is [i]. *)
Theorem natural_key_of_csv_name pdf_name i content :
  0 <= i ->
  natural_key {| name := csv_name pdf_name i; content := content |} = i.
Proof.
  intros Hi. unfold natural_key. cbn [name].
  rewrite natural_key_of_csv_name_aux by done.
  by apply format_int_spec.
Qed.

Lemma natural_key_of_csv_name_witness :
  0 <= 3
  /\ natural_key {| name := csv_name (lit "chunk_12.pdf") 3; content := None |} = 3.
Proof.
  split; [lia|]. apply (natural_key_of_csv_name (lit "chunk_12.pdf") 3 None). lia.
Defined.

Lemma csv_name_inj pdf_name i j :
  0 <= i -> 0 <= j -> csv_name pdf_name i = csv_name pdf_name j -> i = j.
Proof.
  intros Hi Hj Heq.
  pose proof (natural_key_of_csv_name_aux pdf_name i Hi) as H1.
  pose proof (natural_key_of_csv_name_aux pdf_name j Hj) as H2.
  rewrite Heq, H2 in H1. injection H1 as H1.
  destruct (format_int_spec i Hi) as (_ & _ & <-).
  destruct (format_int_spec j Hj) as (_ & _ & <-). by rewrite H1.
Qed.

Section Service.
Context {Chunk : Type}.
Variable analyze_document : Chunk -> option (option (list table)).
Context {Delay : Type}.
Variable sleep : Delay -> option failure.
Implicit Types (p : chunk_file (Chunk := Chunk))
  (out_dir : gmap (list N) (list (list str))).

Lemma re_search_chunk_file_name n :
  0 <= n -> re_search_chunk (chunk_file_name n) = Some (format_int n).
Proof.
  intros Hn. destruct (format_int_spec n Hn) as (Hne & Hdigits & _).
  unfold chunk_file_name.
  assert (Hhere : match_chunk_here (lit "chunk_" ++ format_int n ++ lit ".pdf")
                  = Some (format_int n)).
  { unfold match_chunk_here.
    change (match_ignore_case (lit "chunk_")
              (lit "chunk_" ++ format_int n ++ lit ".pdf"))
      with (Some (format_int n ++ lit ".pdf")).
    cbv beta iota. rewrite span_digits_app; [|done|by intros c [= <-]].
    by destruct (format_int n). }
  change (lit "chunk_" ++ format_int n ++ lit ".pdf")
    with (99%N :: (lit "hunk_" ++ format_int n ++ lit ".pdf")) in *.
  cbn [re_search_chunk]. by rewrite Hhere.
Qed.

(** X16: the key under which the driver orders the file
    [chunk_<n>.pdf] written by the splitter is [n]. *)
Theorem natural_chunk_sort_key_of_chunk_file_name n (bytes : option Chunk) :
  0 <= n ->
  natural_chunk_sort_key
    {| file_name := chunk_file_name n; file_bytes := bytes |} = n.
Proof.
  intros Hn. unfold natural_chunk_sort_key. cbn [file_name].
  rewrite re_search_chunk_file_name by done. by apply format_int_spec.
Qed.

Lemma build_grid_ok (t : table) : exists g, build_grid_from_table t = Ok g.
Proof.
  unfold build_grid_from_table.
  destruct (place_cells_shape (fun _ => True)
              (or_zero (row_count t)) (or_zero (column_count t)) (cells t) _
              ltac:(by apply Forall_forall)
              (initial_grid_shape _ _ _ I)) as (g & Hg & _).
  by exists g.
Qed.

Lemma write_tables_spec pdf_name (tables : list table) :
  forall i0 out_dir total,
    0 <= i0 ->
    exists out',
      write_tables pdf_name i0 tables out_dir total
      = (out', Done (total + len tables))
      /\ (forall (j : nat) table,
            tables !! j = Some table ->
            exists g, build_grid_from_table table = Ok g
                      /\ out' !! csv_name pdf_name (i0 + Z.of_nat j) = Some g)
      /\ (forall path,
            (forall i, i0 <= i < i0 + len tables -> path <> csv_name pdf_name i) ->
            out' !! path = out_dir !! path).
Proof.
  induction tables as [|t tables IH]; intros i0 out_dir total Hi0.
  - exists out_dir. cbn [write_tables]. unfold len. simpl.
    rewrite Z.add_0_r. split; [done|]. split; [by intros j table|done].
  - cbn [write_tables]. destruct (build_grid_ok t) as [g Hg]. rewrite Hg.
    destruct (IH (i0 + 1) (write_csv out_dir (csv_name pdf_name i0) g)
                (total + 1) ltac:(lia)) as (out' & Hrun & Hnew & Hold).
    exists out'. rewrite Hrun, len_cons. pose proof (len_nonneg tables) as Hlen.
    split; [do 2 f_equal; lia|]. split.
    + intros [|j] table Hj; simpl in Hj.
      * injection Hj as <-. exists g. split; [done|].
        rewrite Z.add_0_r, Hold.
        -- unfold write_csv. apply lookup_insert_eq.
        -- intros i Hi Heq. apply csv_name_inj in Heq; lia.
      * destruct (Hnew j table Hj) as (g' & Hg' & Hfile).
        exists g'. split; [done|].
        replace (i0 + Z.of_nat (Datatypes.S j)) with (i0 + 1 + Z.of_nat j) by lia.
        done.
    + intros path Hpath. rewrite Hold by (intros i Hi; apply Hpath; lia).
      unfold write_csv. apply lookup_insert_ne.
      intros Heq. apply (Hpath i0); [lia|done].
Qed.

(** X17: when the chunk can be opened and the service answers,
    [analyze_pdf_to_csvs] returns the number of tables of the answer and
    writes one artifact per table, the grid of the [i]-th table under
    the name [<stem>_table_<i>.csv]; every other file of the output
    directory is left as it was. *)
Theorem analyze_pdf_to_csvs_writes_the_tables p bytes tables out_dir :
  file_bytes p = Some bytes ->
  analyze_document bytes = Some (Some tables) ->
  exists out',
    analyze_pdf_to_csvs analyze_document p out_dir = (out', Done (len tables))
    /\ (forall (j : nat) table,
          tables !! j = Some table ->
          exists g, build_grid_from_table table = Ok g
                    /\ out' !! csv_name (file_name p) (1 + Z.of_nat j) = Some g)
    /\ (forall path,
          (forall i, 1 <= i <= len tables -> path <> csv_name (file_name p) i) ->
          out' !! path = out_dir !! path).
Proof.
  intros Hbytes Hanswer. unfold analyze_pdf_to_csvs. rewrite Hbytes, Hanswer.
  destruct (write_tables_spec (file_name p) tables 1 out_dir 0 ltac:(lia))
    as (out' & Hrun & Hnew & Hold).
  exists out'. rewrite Hrun. split; [done|]. split; [done|].
  intros path Hpath. apply Hold. intros i Hi. apply Hpath. lia.
Qed.

Lemma analyze_pdf_to_csvs_outcome p out_dir :
  exists out',
    (analyze_pdf_to_csvs analyze_document p out_dir
     = (out', Done (tables_found analyze_document p))
     \/ (tables_found analyze_document p = 0 /\ out' = out_dir
         /\ exists f, analyze_pdf_to_csvs analyze_document p out_dir
                      = (out', Failed f))).
Proof.
  unfold analyze_pdf_to_csvs, tables_found.
  destruct (file_bytes p) as [bytes|]; [|exists out_dir; right; eauto].
  destruct (analyze_document bytes) as [[tables|]|].
  - destruct (write_tables_spec (file_name p) tables 1 out_dir 0 ltac:(lia))
      as (out' & Hrun & _).
    exists out'. left. by rewrite Hrun.
  - exists out_dir. left. done.
  - exists out_dir. right. eauto.
Qed.

Lemma try_chunk_total p out_dir grand_total :
  snd (try_chunk analyze_document p out_dir grand_total)
  = grand_total + tables_found analyze_document p.
Proof.
  unfold try_chunk.
  destruct (analyze_pdf_to_csvs_outcome p out_dir)
    as (out' & [Hrun|(Hzero & _ & f & Hrun)]); rewrite Hrun; cbn [snd]; lia.
Qed.

Lemma try_chunk_out_dir p out_dir grand_total :
  fst (try_chunk analyze_document p out_dir grand_total)
  = fst (analyze_pdf_to_csvs analyze_document p out_dir).
Proof.
  unfold try_chunk.
  by destruct (analyze_pdf_to_csvs analyze_document p out_dir) as [out' [total|f]].
Qed.

(** When the pause returns, the loop runs to its end and the total is
    that of the chunks whose analysis succeeded. *)
Lemma process_chunks_total (delay : Delay) chunk_files :
  sleep delay = None ->
  forall out_dir grand_total,
    exists out',
      process_chunks analyze_document sleep chunk_files delay out_dir grand_total
      = (out', Done (grand_total
                     + total_tables_found analyze_document chunk_files)).
Proof.
  intros Hsleep.
  induction chunk_files as [|p chunk_files IH]; intros out_dir grand_total.
  - exists out_dir. unfold total_tables_found. simpl. do 2 f_equal. lia.
  - cbn [process_chunks]. unfold total_tables_found. cbn [map foldr].
    fold (total_tables_found analyze_document chunk_files).
    pose proof (try_chunk_total p out_dir grand_total) as Htotal.
    destruct (try_chunk analyze_document p out_dir grand_total) as [out1 total1].
    cbn [snd] in Htotal. rewrite Hsleep.
    destruct (IH out1 total1) as [out' Hrun]. exists out'. rewrite Hrun.
    do 2 f_equal. lia.
Qed.

(** When the pause raises, the loop ends after its first chunk. *)
Lemma process_chunks_pause_raises (delay : Delay) e p chunk_files out_dir
    grand_total :
  sleep delay = Some e ->
  process_chunks analyze_document sleep (p :: chunk_files) delay out_dir
    grand_total
  = (fst (analyze_pdf_to_csvs analyze_document p out_dir), Failed e).
Proof.
  intros Hsleep. cbn [process_chunks].
  rewrite <- (try_chunk_out_dir p out_dir grand_total).
  destruct (try_chunk analyze_document p out_dir grand_total) as [out1 total1].
  by rewrite Hsleep.
Qed.

Lemma limit_chunks_head (p : chunk_file (Chunk := Chunk)) ps max_chunks :
  head (limit_chunks (p :: ps) max_chunks) = Some p.
Proof.
  unfold limit_chunks. destruct (Z.ltb_spec 0 max_chunks) as [Hpos|]; [|done].
  destruct (Z.to_nat max_chunks) eqn:Hn; [lia|done].
Qed.

(** *** The chunks that [main] selects *)




Lemma glob_chunks_all (listing : list (chunk_file (Chunk := Chunk))) :
  Forall (fun p => exists n, file_name p = chunk_file_name n) listing ->
  glob_chunks (Some listing) = listing.
Proof.
  cbn [glob_chunks]. induction 1 as [|p listing [n Hn] _ IH]; [done|].
  rewrite filter_cons_True, IH; [done|]. rewrite Hn. unfold chunk_file_name. split.
  - by apply prefix_app_r.
  - change (drop 6 (lit "chunk_" ++ format_int n ++ lit ".pdf"))
      with (format_int n ++ lit ".pdf").
    by apply suffix_app_r.
Qed.

Lemma ascending_fmap {A} (key : A -> Z) (l : list A) :
  ascending key l -> ascending id (map key l).
Proof.
  unfold ascending. induction 1 as [|x l Hl IH Hx]; cbn [map]; constructor; [done|].
  apply Forall_forall. intros k Hk. rewrite Forall_forall in Hx.
  apply list_elem_of_fmap in Hk as (y & -> & Hy). by apply Hx.
Qed.

Lemma ascending_seqZ k (n : nat) : ascending id (seqZ k (Z.of_nat n)).
Proof.
  unfold ascending. revert k. induction n as [|n IH]; intros k; [constructor|].
  rewrite seqZ_cons by lia.
  replace (Z.pred (Z.of_nat (Datatypes.S n))) with (Z.of_nat n) by lia.
  constructor; [apply IH|]. apply Forall_forall. intros j Hj.
  apply elem_of_seqZ in Hj. unfold id. lia.
Qed.

Lemma filter_keys_from (listing : list (chunk_file (Chunk := Chunk))) start_from :
  forall k (m : nat),
    map natural_chunk_sort_key listing = seqZ k (Z.of_nat m) ->
    map natural_chunk_sort_key
      (filter (fun p => start_from <= natural_chunk_sort_key p) listing)
    = seqZ (Z.max k start_from) (k + Z.of_nat m - Z.max k start_from).
Proof.
  induction listing as [|p listing IH]; intros k m Hkeys.
  - destruct m as [|m]; [|by rewrite seqZ_cons in Hkeys by lia].
    rewrite filter_nil. symmetry. apply seqZ_nil. lia.
  - destruct m as [|m]; [done|]. rewrite seqZ_cons in Hkeys by lia.
    replace (Z.pred (Z.of_nat (Datatypes.S m))) with (Z.of_nat m) in Hkeys by lia.
    cbn [map] in Hkeys. injection Hkeys as Hp Hkeys.
    specialize (IH _ _ Hkeys).
    destruct (decide (start_from <= natural_chunk_sort_key p)) as [Hle|Hgt].
    + rewrite filter_cons_True by done. cbn [map]. rewrite IH.
      replace (Z.max (Z.succ k) start_from) with (Z.succ k) by lia.
      replace (Z.max k start_from) with k by lia.
      rewrite (seqZ_cons k) by lia. rewrite Hp. do 2 f_equal. lia.
    + rewrite filter_cons_False by done. rewrite IH.
      replace (Z.max (Z.succ k) start_from) with (Z.max k start_from) by lia.
      f_equal. lia.
Qed.

Lemma keys_of_chunk_file_names (numbers : list Z) :
  Forall (fun n => 0 <= n) numbers ->
  map (fun name => natural_chunk_sort_key
                     {| file_name := name; file_bytes := @None Chunk |})
    (map chunk_file_name numbers)
  = numbers.
Proof.
  induction 1 as [|n numbers Hn _ IH]; [done|]. cbn [map]. rewrite IH. f_equal.
  unfold natural_chunk_sort_key. cbn [file_name].
  rewrite re_search_chunk_file_name by done. by apply format_int_spec.
Qed.

(** X19: when the chunk directory holds exactly the files
    [chunk_1.pdf .. chunk_m.pdf], in whatever order it lists them, the
    chunks from [--start-from] on are taken in the order of their
    numbers. *)
Theorem chunks_are_taken_in_number_order (listing : list (chunk_file (Chunk := Chunk)))
    (m : nat) start_from :
  map file_name listing ≡ₚ map chunk_file_name (seqZ 1 (Z.of_nat m)) ->
  map file_name (candidate_chunks (Some listing) start_from)
  = map chunk_file_name
      (seqZ (Z.max 1 start_from) (1 + Z.of_nat m - Z.max 1 start_from)).
Proof.
  intros Hperm.
  assert (Hnames : Forall (fun p => exists n, 1 <= n
                                  /\ file_name p = chunk_file_name n) listing).
  { apply Forall_forall. intros p Hp.
    assert (Hin : file_name p ∈ map chunk_file_name (seqZ 1 (Z.of_nat m))).
    { rewrite <- Hperm. apply list_elem_of_In, in_map. by apply list_elem_of_In. }
    apply list_elem_of_fmap in Hin as (n & Hn & Hin).
    apply elem_of_seqZ in Hin. exists n. split; [lia|done]. }
  assert (Hkey : forall p, p ∈ listing ->
                   file_name p = chunk_file_name (natural_chunk_sort_key p)).
  { intros p Hp. rewrite Forall_forall in Hnames.
    destruct (Hnames p Hp) as (n & Hn & Hname). rewrite Hname. f_equal.
    unfold natural_chunk_sort_key. rewrite Hname.
    rewrite re_search_chunk_file_name by lia. symmetry. apply format_int_spec. lia. }
  unfold candidate_chunks. rewrite glob_chunks_all
    by (eapply Forall_impl; [exact Hnames|]; intros p (n & _ & ?); eauto).
  set (a := sorted listing natural_chunk_sort_key).
  assert (Ha : a ≡ₚ listing) by apply sorted_perm.
  assert (Hkeys : map natural_chunk_sort_key a = seqZ 1 (Z.of_nat m)).
  { symmetry. apply (ascending_unique id).
    - apply ascending_seqZ.
    - apply ascending_fmap, sorted_ascending.
    - rewrite Ha.
      transitivity (map (fun name => natural_chunk_sort_key
                                       {| file_name := name;
                                          file_bytes := @None Chunk |})
                      (map chunk_file_name (seqZ 1 (Z.of_nat m)))).
      + rewrite keys_of_chunk_file_names; [done|].
        apply Forall_forall. intros n Hn. apply elem_of_seqZ in Hn. lia.
      + rewrite <- Hperm, map_map. done.
    - rewrite map_id. apply NoDup_seqZ. }
  pose proof (filter_keys_from a start_from 1 m Hkeys) as Hfiltered.
  rewrite <- Hfiltered, map_map. apply map_ext_in. intros p Hp.
  apply Hkey. apply list_elem_of_In, list_elem_of_filter in Hp as [_ Hp].
  by rewrite <- Ha.
Qed.

(** X20: once the credentials are set and the chunk directory exists,
    no failure of a chunk ends the run: a chunk that cannot be opened or
    analysed is skipped, and when the pause after a chunk returns, [main]
    raises nothing and the total that it reports is the number of tables
    of the selected chunks whose analysis succeeded.  The pause itself
    stands outside the [try]: when it raises, [main] ends with its
    exception after the first selected chunk, whose tables are written. *)
Theorem main_failures_are_chunk_scoped endpoint api_key
    (listing : list (chunk_file (Chunk := Chunk))) out_dir start_from max_chunks
    (delay : Delay) :
  unset endpoint = false ->
  unset api_key = false ->
  let candidates := candidate_chunks (Some listing) start_from in
  let selected := limit_chunks candidates max_chunks in
  let run :=
    AnalyzeDriver.main analyze_document sleep endpoint api_key (Some listing)
      out_dir start_from max_chunks delay in
  (candidates = [] -> run = (out_dir, Done NoChunks))
  /\ (candidates <> [] -> sleep delay = None ->
      exists out',
        run = (out', Done (Extracted (total_tables_found analyze_document selected)
                             (len selected))))
  /\ (forall e, candidates <> [] -> sleep delay = Some e ->
      exists p,
        head selected = Some p
        /\ run = (fst (analyze_pdf_to_csvs analyze_document p out_dir), Failed e)).
Proof.
  intros Hendpoint Hkey. cbv zeta. unfold AnalyzeDriver.main.
  rewrite Hendpoint, Hkey. cbn [orb].
  destruct (candidate_chunks (Some listing) start_from) as [|p ps] eqn:Hcand.
  - split; [done|]. split; [done|]. intros e Hne. done.
  - split; [done|]. split.
    + intros _ Hsleep.
      destruct (process_chunks_total delay (limit_chunks (p :: ps) max_chunks)
                  Hsleep out_dir 0) as [out' Hrun].
      exists out'. rewrite Hrun. do 3 f_equal.
    + intros e _ Hsleep. exists p. split; [apply limit_chunks_head|].
      pose proof (limit_chunks_head p ps max_chunks) as Hhead.
      destruct (limit_chunks (p :: ps) max_chunks) as [|q qs] eqn:Hsel;
        [done|]. injection Hhead as ->.
      by rewrite (process_chunks_pause_raises delay e p qs out_dir 0 Hsleep).
Qed.

End Service.

Lemma natural_chunk_sort_key_of_chunk_file_name_witness :
  0 <= 12
  /\ natural_chunk_sort_key
       {| file_name := chunk_file_name 12; file_bytes := @None unit |} = 12.
Proof.
  split; [lia|].
  apply (natural_chunk_sort_key_of_chunk_file_name (Chunk := unit) 12 None). lia.
Defined.

Lemma analyze_pdf_to_csvs_writes_the_tables_witness :
  let p := {| file_name := lit "chunk_10.pdf"; file_bytes := Some 5%nat |} in
  file_bytes p = Some 5%nat
  /\ sample_service 5 = Some (Some [sample_table; sample_table])
  /\ exists out',
       analyze_pdf_to_csvs sample_service p ∅
       = (out', Done (len [sample_table; sample_table]))
       /\ (forall (j : nat) table,
             [sample_table; sample_table] !! j = Some table ->
             exists g, build_grid_from_table table = Ok g
                       /\ out' !! csv_name (file_name p) (1 + Z.of_nat j) = Some g)
       /\ (forall path,
             (forall i, 1 <= i <= len [sample_table; sample_table] ->
                path <> csv_name (file_name p) i) ->
             out' !! path = (∅ : gmap (list N) (list (list str))) !! path).
Proof.
  cbv zeta. split; [reflexivity|]. split; [reflexivity|].
  apply (analyze_pdf_to_csvs_writes_the_tables sample_service
           {| file_name := lit "chunk_10.pdf"; file_bytes := Some 5%nat |}
           5%nat [sample_table; sample_table] ∅); reflexivity.
Defined.

Lemma chunks_are_taken_in_number_order_witness :
  map file_name shuffled_chunks ≡ₚ map chunk_file_name (seqZ 1 (Z.of_nat 3))
  /\ map file_name (candidate_chunks (Some shuffled_chunks) 2)
     = map chunk_file_name (seqZ (Z.max 1 2) (1 + Z.of_nat 3 - Z.max 1 2)).
Proof.
  assert (Hperm : map file_name shuffled_chunks
                  ≡ₚ map chunk_file_name (seqZ 1 (Z.of_nat 3))).
  { symmetry.
    apply (Permutation_cons_append (map chunk_file_name [2; 3]) (chunk_file_name 1)). }
  split; [exact Hperm|].
  apply (chunks_are_taken_in_number_order shuffled_chunks 3 2 Hperm).
Defined.

Lemma main_failures_are_chunk_scoped_witness :
  unset (Some (lit "https://example")) = false
  /\ unset (Some (lit "key")) = false
  /\ let candidates := candidate_chunks (Some sample_chunks_dir) 2 in
     let selected := limit_chunks candidates 0 in
     let run :=
       AnalyzeDriver.main sample_service sample_sleep
         (Some (lit "https://example")) (Some (lit "key"))
         (Some sample_chunks_dir) ∅ 2 0 Infinite in
     (candidates = [] -> run = (∅, Done NoChunks))
     /\ (candidates <> [] -> sample_sleep Infinite = None ->
         exists out',
           run = (out', Done (Extracted (total_tables_found sample_service selected)
                                (len selected))))
     /\ (forall e, candidates <> [] -> sample_sleep Infinite = Some e ->
         exists p,
           head selected = Some p
           /\ run = (fst (analyze_pdf_to_csvs sample_service p ∅), Failed e)).
Proof.
  split; [reflexivity|]. split; [reflexivity|].
  apply (main_failures_are_chunk_scoped sample_service sample_sleep
           (Some (lit "https://example")) (Some (lit "key"))
           sample_chunks_dir ∅ 2 0 Infinite); reflexivity.
Defined.

(** The driver on the sample directory: chunk 1 cannot be opened, the
    service fails on chunk 2 and finds no table in chunk 3; only the two
    tables of chunk 10 are written. *)
Example main_on_sample_chunks_dir :
  exists out',
    AnalyzeDriver.main sample_service sample_sleep (Some (lit "https://example"))
      (Some (lit "key")) (Some sample_chunks_dir) ∅ 1 0 (Seconds 1)
    = (out', Done (Extracted 2 4))
    /\ map fst (map_to_list out')
       ≡ₚ [csv_name (lit "chunk_10.pdf") 1; csv_name (lit "chunk_10.pdf") 2].
Proof.
  eexists. split; [vm_compute; reflexivity|]. vm_compute.
  apply Permutation_swap || reflexivity.
Qed.

(** The same run with [--delay inf]: the pause after the first chunk
    raises, and the chunks that follow are never opened. *)
Example main_with_an_infinite_delay :
  AnalyzeDriver.main sample_service sample_sleep (Some (lit "https://example"))
    (Some (lit "key")) (Some sample_chunks_dir) ∅ 1 0 Infinite
  = (∅, Failed OverflowError).
Proof. vm_compute. reflexivity. Qed.

(** Chunk names with digits of another script: [chunk_] followed by the
    Arabic-Indic digit three has the key 3. *)
Example natural_chunk_sort_key_of_arabic_indic_digits :
  natural_chunk_sort_key
    {| file_name := lit "chunk_" ++ [1635%N] ++ lit ".pdf";
       file_bytes := @None unit |} = 3
  /\ natural_chunk_sort_key
       {| file_name := lit "CHUNK_1" ++ [1635%N] ++ lit ".PDF";
          file_bytes := @None unit |} = 13.
Proof. split; reflexivity. Qed.

End AnalyzeDriverFacts.

(** ** From the splitter to the driver *)

Module PipelineOrderFacts.
Import Py ChunkPdf ChunkPdfCli ChunkPdfFacts ChunkPdfCliFacts AnalyzeDriver
  MergeCsvs MergeCsvsFacts MergeRowFacts FormatFacts AnalyzeDriverFacts
  PipelineVocabulary.

Section Pages.
Context {Page : Type}.
Variable pdf_size : list Page -> Z.

Lemma chunk_entry_key (folder : gmap Z (list Page)) n :
  0 <= n -> natural_chunk_sort_key (chunk_entry folder n) = n.
Proof.
  intros Hn. unfold natural_chunk_sort_key, chunk_entry. cbn [file_name].
  rewrite re_search_chunk_file_name by done. by apply format_int_spec.
Qed.

Lemma candidates_of_numbered_listing (folder : gmap Z (list Page))
    (listing : list (chunk_file (Chunk := list Page))) (m : nat) start_from :
  listing ≡ₚ map (chunk_entry folder) (seqZ 1 (Z.of_nat m)) ->
  candidate_chunks (Some listing) start_from
  = map (chunk_entry folder)
      (seqZ (Z.max 1 start_from) (1 + Z.of_nat m - Z.max 1 start_from)).
Proof.
  intros Hperm.
  assert (Hshape : forall p, p ∈ listing ->
                     1 <= natural_chunk_sort_key p
                     /\ p = chunk_entry folder (natural_chunk_sort_key p)).
  { intros p Hp. rewrite Hperm in Hp.
    apply list_elem_of_fmap in Hp as (n & -> & Hn). apply elem_of_seqZ in Hn.
    rewrite chunk_entry_key by lia. split; [lia|done]. }
  unfold candidate_chunks. rewrite glob_chunks_all.
  2:{ apply Forall_forall. intros p Hp. destruct (Hshape p Hp) as [_ ->]. by eexists. }
  set (a := sorted listing natural_chunk_sort_key).
  assert (Ha : a ≡ₚ listing) by apply sorted_perm.
  assert (Hkeys : map natural_chunk_sort_key a = seqZ 1 (Z.of_nat m)).
  { symmetry. apply (ascending_unique id).
    - apply ascending_seqZ.
    - apply ascending_fmap, sorted_ascending.
    - rewrite Ha, Hperm, map_map. apply Permutation_refl'. symmetry.
      transitivity (map id (seqZ 1 (Z.of_nat m))); [|apply map_id].
      apply map_ext_in. intros n Hn. apply list_elem_of_In, elem_of_seqZ in Hn.
      rewrite chunk_entry_key by lia. done.
    - rewrite map_id. apply NoDup_seqZ. }
  pose proof (filter_keys_from a start_from 1 m Hkeys) as Hfiltered.
  rewrite <- Hfiltered, map_map. symmetry.
  etransitivity; [|apply map_id]. apply map_ext_in. intros p Hp. unfold id.
  apply list_elem_of_In, list_elem_of_filter in Hp as [_ Hp].
  rewrite Ha in Hp. by destruct (Hshape p Hp) as [_ <-].
Qed.

(** X21: when the chunk directory lists, in whatever order, exactly the
    chunk files that [generate_pdf_chunks] emitted, the driver started
    with the default [--start-from 1] takes the chunks in the order of
    their numbers, and the contents of the chunks it takes, one after
    the other, are the pages of the document in their original order. *)
Theorem driver_reads_the_pages_in_order (pages : list Page) cf lf P max st
    (listing : list (chunk_file (Chunk := list Page))) :
  generate_pdf_chunks pdf_size (Some pages) cf lf P max = Ok st ->
  listing ≡ₚ map (chunk_entry (chunk_folder st)) (chunks st) ->
  map file_bytes (candidate_chunks (Some listing) 1)
  = map Some (chunk_contents st)
  /\ concat (chunk_contents st) = pages.
Proof.
  intros Hst Hperm.
  apply generate_pdf_chunks_ok in Hst as (_ & _ & Hchunks & Hcontents & Hfiles).
  split; [|by rewrite Hcontents, concat_flat_map_pieces, runs_concat].
  unfold len in Hchunks. rewrite Hchunks in Hperm.
  rewrite (candidates_of_numbered_listing _ _ _ 1 Hperm).
  replace (Z.max 1 1) with 1 by lia.
  replace (1 + Z.of_nat (length (flat_map (pieces pdf_size max) (runs P pages))) - 1)
    with (Z.of_nat (length (flat_map (pieces pdf_size max) (runs P pages)))) by lia.
  unfold chunk_contents. rewrite Hchunks, !map_map. apply map_ext_in.
  intros n Hn. apply list_elem_of_In, elem_of_seqZ in Hn. cbn [chunk_entry file_bytes].
  destruct (lookup_lt_is_Some_2 (flat_map (pieces pdf_size max) (runs P pages))
              (Z.to_nat (n - 1))) as [r Hr]; [lia|].
  apply Hfiles in Hr.
  replace (1 + Z.of_nat (Z.to_nat (n - 1))) with n in Hr by lia.
  by rewrite Hr.
Qed.

End Pages.

Lemma driver_reads_the_pages_in_order_witness :
  exists st,
    generate_pdf_chunks sum_size (Some [1; 2; 3]) ∅ ∅ 2 4194304 = Ok st
    /\ [chunk_entry (chunk_folder st) 2; chunk_entry (chunk_folder st) 1]
       ≡ₚ map (chunk_entry (chunk_folder st)) (chunks st)
    /\ map file_bytes
         (candidate_chunks
            (Some [chunk_entry (chunk_folder st) 2;
                   chunk_entry (chunk_folder st) 1]) 1)
       = map Some (chunk_contents st)
    /\ concat (chunk_contents st) = [1; 2; 3].
Proof.
  destruct (generate_pdf_chunks_total sum_size [1; 2; 3] ∅ ∅ 2 4194304)
    as [st Hst].
  exists st. split; [exact Hst|].
  assert (Hperm : [chunk_entry (chunk_folder st) 2; chunk_entry (chunk_folder st) 1]
                  ≡ₚ map (chunk_entry (chunk_folder st)) (chunks st)).
  { destruct (generate_pdf_chunks_ok _ _ _ _ _ _ _ Hst) as (_ & _ & -> & _).
    replace (seqZ 1 (len (flat_map (pieces sum_size 4194304) (runs 2 [1; 2; 3]))))
      with [1; 2] by (vm_compute; reflexivity).
    cbn [map]. apply perm_swap. }
  split; [exact Hperm|].
  exact (driver_reads_the_pages_in_order sum_size [1; 2; 3] ∅ ∅ 2 4194304 st _
           Hst Hperm).
Defined.

End PipelineOrderFacts.

(** ** Plain merges *)

Module PlainMergeFacts.
Import Py MergeCsvs MergeCsvsFacts MergeRowFacts MergeCsvsCli.

Lemma written_for_plain W (f : dir_entry) :
  (forall row, row ∈ rows_of f -> len row = W) ->
  written_for false false W f = rows_of f.
Proof.
  intros Hw. unfold written_for, provenance. rewrite filter_kept_all.
  rewrite <- (map_id (rows_of f)) at 2. apply map_ext_in. intros row Hrow.
  cbn [app]. apply pad_row_keeps_cells_eq, Hw. by apply list_elem_of_In.
Qed.

Lemma merged_rows_plain (files : list dir_entry) w :
  (forall f row, f ∈ files -> row ∈ rows_of f -> len row = w) ->
  merged_rows false false files = flat_map rows_of files.
Proof.
  intros Hw. unfold merged_rows. apply flat_map_ext_elem. intros f Hf.
  apply written_for_plain. intros row Hrow.
  pose proof (Hw f row Hf Hrow) as Hlen.
  pose proof (row_len_le_max_width files f row Hf Hrow) as Hle.
  destruct (max_width_attained files) as [H0|(g & r & Hg & Hr & Hmax)].
  - pose proof (len_nonneg row). lia.
  - rewrite <- Hmax, (Hw g r Hg Hr). done.
Qed.

(** X22: called with [--no-add-source --keep-empty] on tables whose rows
    all have one common width, the merge neither drops nor changes a
    row: the merged artifact is the rows of the artifacts, one artifact
    after the other in the order of their keys. *)
Theorem plain_merge_is_concatenation fs fs' w :
  MergeCsvsCli.main fs true true = (fs', Ok tt) ->
  glob_csv (csv_dir fs) <> [] ->
  (forall f row, f ∈ glob_csv (csv_dir fs) -> row ∈ rows_of f -> len row = w) ->
  out_file fs'
  = Some (flat_map rows_of (sorted (glob_csv (csv_dir fs)) natural_key)).
Proof.
  unfold MergeCsvsCli.main. cbn [negb]. intros Hrun Hne Hw.
  destruct (merge_csvs fs false false) as [fs1 [wrote|e]] eqn:Hmerge;
    [|discriminate].
  injection Hrun as ->.
  apply merge_csvs_ok in Hmerge. cbv zeta in Hmerge.
  destruct Hmerge as [(Hnil & _)|(_ & _ & -> & _)]; [done|].
  cbn [out_file]. f_equal. apply (merged_rows_plain _ w).
  intros f row Hf. apply Hw. by rewrite <- (sorted_perm natural_key).
Qed.

Lemma plain_merge_is_concatenation_witness :
  MergeCsvsCli.main lexicographic_listing true true
  = ({| csv_dir := csv_dir lexicographic_listing;
        out_file := Some [[lit "b"]; [lit "a"]] |}, Ok tt)
  /\ glob_csv (csv_dir lexicographic_listing) <> []
  /\ (forall f row,
        f ∈ glob_csv (csv_dir lexicographic_listing) -> row ∈ rows_of f ->
        len row = 1)
  /\ Some [[lit "b"]; [lit "a"]]
     = Some (flat_map rows_of
               (sorted (glob_csv (csv_dir lexicographic_listing)) natural_key)).
Proof.
  assert (Hrun : MergeCsvsCli.main lexicographic_listing true true
                 = ({| csv_dir := csv_dir lexicographic_listing;
                       out_file := Some [[lit "b"]; [lit "a"]] |}, Ok tt))
    by (vm_compute; reflexivity).
  assert (Hne : glob_csv (csv_dir lexicographic_listing) <> [])
    by (vm_compute; discriminate).
  assert (Hw : forall f row,
             f ∈ glob_csv (csv_dir lexicographic_listing) -> row ∈ rows_of f ->
             len row = 1).
  { intros f row Hf Hrow.
    replace (glob_csv (csv_dir lexicographic_listing))
      with [chunk_10_table_1; chunk_2_table_1] in Hf by (vm_compute; reflexivity).
    apply elem_of_cons in Hf as [->|Hf];
      [|apply list_elem_of_singleton in Hf as ->];
      apply list_elem_of_singleton in Hrow as ->; reflexivity. }
  split; [exact Hrun|]. split; [exact Hne|]. split; [exact Hw|].
  exact (plain_merge_is_concatenation lexicographic_listing _ 1 Hrun Hne Hw).
Defined.

End PlainMergeFacts.
